(** * doatools.estimation.core: spectrum-based DOA estimation

    A shallow embedding of [src/doatools/estimation/core.py] and the
    properties of its estimation pipeline.

    Layout of the development:
    - exceptions and the array primitives of numpy/scipy the module calls;
    - [find_peaks_simple] and [get_noise_subspace];
    - the collaborator interfaces (array design, search grid), the
      estimator object, and the monad in which its methods run;
    - [_get_steering_matrix], [_estimate], [_refine_estimates];
    - small reference instances used to run the model on examples;
    - the theorems. *)

From Stdlib Require Import ZArith List Lia Bool Sorted Permutation.
From stdpp Require Import base tactics option list sorting strings.
Import ListNotations.

Local Open Scope Z_scope.
Local Open Scope nat_scope.

(** ** Exceptions

    Python exceptions abort the running call; [Raise e] is a call that
    ended with exception [e], [Ok a] one that returned [a]. *)

Inductive exn : Type :=
| IndexError
| ValueError
| LinAlgError
| CallerError.

Inductive outcome (A : Type) : Type :=
| Ok (a : A)
| Raise (e : exn).
Arguments Ok {A} a.
Arguments Raise {A} e.

Definition obind {A B : Type} (o : outcome A) (f : A -> outcome B) : outcome B :=
  match o with
  | Ok a => f a
  | Raise e => Raise e
  end.

Definition of_option {A : Type} (e : exn) (o : option A) : outcome A :=
  match o with
  | Some a => Ok a
  | None => Raise e
  end.

Fixpoint omap {A B : Type} (f : A -> outcome B) (l : list A) : outcome (list B) :=
  match l with
  | [] => Ok []
  | a :: l' => obind (f a) (fun b => obind (omap f l') (fun bs => Ok (b :: bs)))
  end.

(** ** Python slices

    [slice_index n i] is the position a slice bound [i] denotes in a
    sequence of length [n]: negative bounds count from the end, and every
    bound is clamped to [0..n]; slicing never raises. *)

Definition slice_index (n : nat) (i : Z) : nat :=
  if (i <? 0)%Z then Z.to_nat (Z.max 0 (i + Z.of_nat n))
  else Z.to_nat (Z.min i (Z.of_nat n)).

(** [l[:stop]] *)
Definition slice_to {A : Type} (l : list A) (stop : Z) : list A :=
  take (slice_index (length l) stop) l.

(** [l[start:]] *)
Definition slice_from {A : Type} (l : list A) (start : Z) : list A :=
  drop (slice_index (length l) start) l.

(** ** numpy arrays

    Spectrum samples are only ever compared with each other; finite real
    samples are represented by integers.  An n-d array is its shape and
    its row-major data. *)

Record ndarray : Type := mk_ndarray {
  nd_shape : list nat;
  nd_data : list Z
}.

Definition ndim (x : ndarray) : nat := length (nd_shape x).

(** Number of elements of an array of the given shape. *)
Definition shape_size (shp : list nat) : nat := fold_right Nat.mul 1 shp.

(** [flat.reshape(shp)] of a 1-d array *)
Definition np_reshape (flat : list Z) (shp : list nat) : outcome ndarray :=
  if length flat =? shape_size shp then Ok (mk_ndarray shp flat)
  else Raise ValueError.

(** Row-major offset of a coordinate (no bounds check). *)
Fixpoint ravel_offset (shp coord : list nat) (acc : nat) : nat :=
  match shp, coord with
  | d :: shp', c :: coord' => ravel_offset shp' coord' (acc * d + c)
  | _, _ => acc
  end.

Definition coord_in_bounds (shp coord : list nat) : bool :=
  (length coord =? length shp) && forallb (fun '(d, c) => c <? d) (combine shp coord).

(** [np.ravel_multi_index] of one coordinate, in the default mode 'raise'. *)
Definition ravel_point (shp coord : list nat) : outcome nat :=
  if coord_in_bounds shp coord then Ok (ravel_offset shp coord 0)
  else Raise ValueError.

(** Coordinate of a row-major offset (no bounds check). *)
Fixpoint unravel_offset (shp : list nat) (p : nat) : list nat :=
  match shp with
  | [] => []
  | d :: shp' => (p / shape_size shp') mod d :: unravel_offset shp' p
  end.

(** [np.unravel_index(p, shp)] for a scalar [p] *)
Definition unravel_point (shp : list nat) (p : nat) : outcome (list nat) :=
  if p <? shape_size shp then Ok (unravel_offset shp p) else Raise ValueError.

(** A tuple of coordinate arrays (one array per axis) read as the list of
    its points; the number of points is the length of the first array. *)
Definition axis_get (j : nat) (axis : list nat) : outcome nat :=
  of_option IndexError (axis !! j).

Definition tuple_first {A : Type} (t : list A) : outcome A :=
  of_option IndexError (head t).

Definition points_of (axes : list (list nat)) : outcome (list (list nat)) :=
  match axes with
  | [] => Ok []
  | first :: _ =>
      if forallb (fun axis => length axis =? length first) axes
      then omap (fun j => omap (axis_get j) axes) (seq 0 (length first))
      else Raise IndexError
  end.

(** The coordinate arrays of a list of points of rank [rank]. *)
Definition axes_of (rank : nat) (points : list (list nat)) : list (list nat) :=
  map (fun a => map (fun pt => nth a pt 0) points) (seq 0 rank).

(** [np.ravel_multi_index(axes, shp)] *)
Definition np_ravel_multi_index (axes : list (list nat)) (shp : list nat)
  : outcome (list nat) :=
  match points_of axes with
  | Ok pts => omap (ravel_point shp) pts
  | Raise _ => Raise ValueError
  end.

(** [np.unravel_index(idx, shp)] for an index array [idx] *)
Definition np_unravel_index (idx : list nat) (shp : list nat)
  : outcome (list (list nat)) :=
  obind (omap (unravel_point shp) idx) (fun pts => Ok (axes_of (length shp) pts)).

(** [x[axes]]: the samples at the points of a tuple of coordinate arrays. *)
Definition getitem_tuple (x : ndarray) (axes : list (list nat)) : outcome (list Z) :=
  obind (points_of axes) (fun pts =>
    omap (fun pt =>
            if coord_in_bounds (nd_shape x) pt
            then of_option IndexError (nd_data x !! ravel_offset (nd_shape x) pt 0)
            else Raise IndexError) pts).

(** [a[idx]] for an index array [idx] *)
Definition getitem_array {A : Type} (a : list A) (idx : list nat) : outcome (list A) :=
  omap (fun j => of_option IndexError (a !! j)) idx.

(** [a[i]] for a scalar [i] *)
Definition getitem {A : Type} (a : list A) (i : nat) : outcome A :=
  of_option IndexError (a !! i).

(** The order of samples by position: [v[i] <= v[j]]. *)
Definition sample_le (v : list Z) (i j : nat) : Prop :=
  (nth i v 0 <= nth j v 0)%Z.

Global Instance sample_le_dec (v : list Z) (i j : nat) : Decision (sample_le v i j).
Proof. unfold sample_le. apply _. Defined.

Global Instance sample_le_total (v : list Z) : Total (sample_le v).
Proof. intros i j. unfold sample_le. lia. Qed.

Global Instance sample_le_trans (v : list Z) : Transitive (sample_le v).
Proof. intros i j l. unfold sample_le. lia. Qed.

(** [np.argsort(v)]: the positions of [v] in ascending order of sample.
    numpy leaves the order of equal samples to the sort kind; the merge
    sort here is one admissible choice. *)
Definition np_argsort (v : list Z) : list nat :=
  merge_sort (sample_le v) (seq 0 (length v)).

(** [idx.sort()] *)
Definition np_sort (idx : list nat) : list nat := merge_sort le idx.

(** [v.argmax()]: position of the first occurrence of the maximum. *)
Fixpoint argmax_from (best_i : nat) (best : Z) (i : nat) (v : list Z) : nat :=
  match v with
  | [] => best_i
  | y :: v' =>
      if (best <? y)%Z then argmax_from i y (S i) v'
      else argmax_from best_i best (S i) v'
  end.

Definition np_argmax (v : list Z) : outcome nat :=
  match v with
  | [] => Raise ValueError
  | y :: v' => Ok (argmax_from 0 y 1 v')
  end.

(** ** scipy.signal.find_peaks

    With no conditions given, [find_peaks(x)[0]] is the array of midpoints
    computed by scipy's [_local_maxima_1d]: the routine walks the interior
    samples; at a sample that rises above its left neighbour it looks
    ahead over the run of equal samples, and reports the middle of the run
    (rounded down) when the sample after the run is smaller. *)

(** The inner loop [while i_ahead < i_max and x[i_ahead] == x[i]: i_ahead += 1]. *)
Fixpoint plateau_end (x : list Z) (v : Z) (i_max : nat) (fuel : nat) (i_ahead : nat) : nat :=
  match fuel with
  | O => i_ahead
  | S fuel' =>
      if (i_ahead <? i_max) && (nth i_ahead x 0 =? v)%Z
      then plateau_end x v i_max fuel' (S i_ahead)
      else i_ahead
  end.

(** The outer loop [while i < i_max: ...; i += 1]. *)
Fixpoint local_maxima_loop (x : list Z) (i_max : nat) (fuel : nat) (i : nat) : list nat :=
  match fuel with
  | O => []
  | S fuel' =>
      if i <? i_max then
        if (nth (i - 1) x 0 <? nth i x 0)%Z then
          let i_ahead := plateau_end x (nth i x 0%Z) i_max (i_max - S i) (S i) in
          if (nth i_ahead x 0 <? nth i x 0)%Z then
            let left_edge := i in
            let right_edge := i_ahead - 1 in
            (left_edge + right_edge) / 2
              :: local_maxima_loop x i_max fuel' (S i_ahead)
          else local_maxima_loop x i_max fuel' (S i)
        else local_maxima_loop x i_max fuel' (S i)
      else []
  end.

(** [i = 1] (the first sample cannot be a maximum), [i_max = len(x) - 1]
    (nor can the last one). *)
Definition local_maxima_1d (x : list Z) : list nat :=
  local_maxima_loop x (length x - 1) (length x) 1.

(** [find_peaks(x)[0]] *)
Definition find_peaks (x : ndarray) : list nat := local_maxima_1d (nd_data x).

(** ** scipy.ndimage.maximum_filter

    [maximum_filter(x, 3)] replaces every sample by the maximum over the
    window of width 3 per axis around it; in the default mode 'reflect' the
    sample beyond an edge is the edge sample itself. *)

Fixpoint window3 (shp coord : list nat) : list (list nat) :=
  match shp, coord with
  | d :: shp', c :: coord' =>
      rest ← window3 shp' coord';
      c' ← [c - 1; c; Nat.min (S c) (d - 1)];
      [c' :: rest]
  | _, _ => [[]]
  end.

Definition sample_at (x : ndarray) (coord : list nat) : Z :=
  nth (ravel_offset (nd_shape x) coord 0) (nd_data x) 0%Z.

Definition maximum_filter3 (x : ndarray) : ndarray :=
  mk_ndarray (nd_shape x)
    (imap (fun p v =>
             fold_right Z.max v
               (map (sample_at x) (window3 (nd_shape x) (unravel_offset (nd_shape x) p))))
          (nd_data x)).

(** [np.where(x == y)] *)
Definition np_where_eq (x y : ndarray) : list (list nat) :=
  axes_of (ndim x)
    (map (unravel_offset (nd_shape x))
       (filter (fun p => nth p (nd_data x) 0%Z = nth p (nd_data y) 0%Z)
          (seq 0 (length (nd_data x))))).

(** ** find_peaks_simple *)

Definition find_peaks_simple (x : ndarray) : list (list nat) :=
  if ndim x =? 1 then
    (* Delegate to scipy's peak finder. *)
    [find_peaks x]
  else
    (* Use maximum filter for peak finding. *)
    let y := maximum_filter3 x in
    np_where_eq x y.

(** ** get_noise_subspace

    Matrices are lists of rows over a scalar type [F]; eigenvalues live in
    a type [Rl] of reals.  [np.linalg.eigh] is a parameter: it returns the
    eigenvalues and the matrix whose columns are the eigenvectors, or
    raises. *)

Section NoiseSubspace.
Context {F Rl : Type}.

Variable eigh : list (list F) -> outcome (list Rl * list (list F)).

Definition get_noise_subspace (R : list (list F)) (k : Z) : outcome (list (list F)) :=
  obind (eigh R) (fun '(_, E) =>
    (* Note: eigenvalues are sorted in ascending order. *)
    Ok (map (fun row => slice_to row (- k)%Z) E)).
End NoiseSubspace.

(** The vocabulary in which the contract of [np.linalg.eigh] is stated. *)
Class Scalars (F Rl : Type) : Type := {
  s_zero : F;
  s_add : F -> F -> F;
  s_mul : F -> F -> F;
  s_conj : F -> F;
  s_real : Rl -> F;
  r_le : Rl -> Rl -> Prop
}.

Section Eigen.
Context {F Rl : Type} `{Scalars F Rl}.

Definition dot (u v : list F) : F :=
  fold_right s_add s_zero (zip_with s_mul u v).

Definition mat_vec (R : list (list F)) (v : list F) : list F :=
  map (fun row => dot row v) R.

Definition entry (R : list (list F)) (i j : nat) : F :=
  nth j (nth i R []) s_zero.

Definition column (j : nat) (E : list (list F)) : list F :=
  map (fun row => nth j row s_zero) E.

Definition is_matrix (rows cols : nat) (R : list (list F)) : Prop :=
  length R = rows /\ Forall (fun row => length row = cols) R.

Definition hermitian (n : nat) (R : list (list F)) : Prop :=
  forall i j, i < n -> j < n -> entry R i j = s_conj (entry R j i).

(** [v] is an eigenvector of [R] for the eigenvalue [lam]. *)
Definition eigenpair (R : list (list F)) (lam : Rl) (v : list F) : Prop :=
  v <> repeat s_zero (length v) /\
  mat_vec R v = map (s_mul (s_real lam)) v.

Definition ascending (w : list Rl) : Prop :=
  forall i j a b, i <= j -> w !! i = Some a -> w !! j = Some b -> r_le a b.

(** What [eigh] promises for an n x n Hermitian [R]: [n] eigenvalues in
    ascending order, and an n x n matrix whose j-th column is an
    eigenvector for the j-th eigenvalue. *)
Definition eigh_contract (n : nat) (R : list (list F))
    (res : outcome (list Rl * list (list F))) : Prop :=
  exists w E, res = Ok (w, E) /\
    length w = n /\ is_matrix n n E /\ ascending w /\
    forall j lam, w !! j = Some lam -> eigenpair R lam (column j E).
End Eigen.

(** ** Collaborators

    The array design, the search grid and the source placement are outside
    the module; the estimator only uses the operations below.  A source
    placement is the sequence of its locations. *)

Class ArrayDesign (D Loc W Mat : Type) : Type := {
  (** [design.steering_matrix(placement, wavelength, perturbations=...)] *)
  steering_matrix : D -> list Loc -> W -> string -> Mat
}.

Class SearchGrid (G Loc : Type) : Type := {
  (** [grid.source_placement] *)
  source_placement : G -> list Loc;
  (** [grid.shape] *)
  shape : G -> list nat;
  (** [grid.create_refined_grids_at] applied to the coordinate arrays and
      [density=...] *)
  create_refined_grids_at : G -> list (list nat) -> Z -> list G;
  (** [grid.create_refined_grid_at(coord, density=...)] *)
  create_refined_grid_at : G -> list nat -> Z -> G
}.

(** What [_estimate] returns: a pair, or a triple when the spectrum was
    asked for; [None] is Python's None. *)
Inductive estimate_result (Est : Type) : Type :=
| Ret2 (resolved : bool) (estimates : option Est)
| Ret3 (resolved : bool) (estimates : option Est) (spectrum : option ndarray).
Arguments Ret2 {Est} resolved estimates.
Arguments Ret3 {Est} resolved estimates spectrum.

Definition resolved_of {Est : Type} (r : estimate_result Est) : bool :=
  match r with
  | Ret2 b _ | Ret3 b _ _ => b
  end.

Definition estimates_of {Est : Type} (r : estimate_result Est) : option Est :=
  match r with
  | Ret2 _ e | Ret3 _ e _ => e
  end.

(** [range(n)] *)
Definition range (n : Z) : list Z := map Z.of_nat (seq 0 (Z.to_nat n)).

Section Pipeline.
Context {D W G Loc Mat : Type}.
Context `{ArrayDesign D Loc W Mat} `{SearchGrid G Loc}.

(** A placement object created by the estimator is a cell of the heap
    holding its [locations]; [ref] is the reference to it. *)
Definition ref : Type := nat.

(** The calls and in-place writes a method performs, in order. *)
Inductive event : Type :=
| Call_steering_matrix (p : list Loc) (w : W) (perturbations : string)
| Call_f_sp (A : Mat)
| Call_peak_finder (sp : ndarray)
| Call_argsort (v : list Z)
| Call_sort (idx : list nat)
| Call_placement_getitem (idx : list nat)
| Call_refine_estimates (est0 : ref) (peak_indices : list (list nat)) (density n_iters : Z)
| Call_create_refined_grids_at (coords : list (list nat)) (density : Z)
| Call_create_refined_grid_at (g : G) (coord : list nat) (density : Z)
| Set_location (est : ref) (i : nat) (v : Loc).

(** The immutable attributes of the estimator, as set by [__init__]. *)
Record SpectrumBasedEstimatorBase : Type := {
  _design : D;
  _wavelength : W;
  _search_grid : G;
  _peak_finder : ndarray -> outcome (list (list nat));
  _enable_caching : bool
}.

(** The mutable state: the attribute [self._A], the heap of placement
    objects, and the trace of events so far. *)
Record world : Type := mk_world {
  _A : option Mat;
  heap : list (list Loc);
  trace : list event
}.

(** [__init__] leaves [self._A = None]. *)
Definition init_world : world := mk_world None [] [].

(** Computations over the world that may raise; the world a raising
    computation leaves behind is kept, as in Python. *)
Definition M (A : Type) : Type := world -> outcome A * world.

Definition ret {A : Type} (a : A) : M A := fun w => (Ok a, w).

Definition bind {A B : Type} (m : M A) (f : A -> M B) : M B :=
  fun w =>
    match m w with
    | (Ok a, w') => f a w'
    | (Raise e, w') => (Raise e, w')
    end.

Definition lift {A : Type} (o : outcome A) : M A := fun w => (o, w).

Definition log (ev : event) : M unit :=
  fun w => (Ok tt, mk_world (_A w) (heap w) (trace w ++ [ev])).

Definition get_A : M (option Mat) := fun w => (Ok (_A w), w).

Definition set_A (a : option Mat) : M unit :=
  fun w => (Ok tt, mk_world a (heap w) (trace w)).

(** A new placement object with the given locations. *)
Definition alloc (locs : list Loc) : M ref :=
  fun w => (Ok (length (heap w)), mk_world (_A w) (heap w ++ [locs]) (trace w)).

(** [est.locations[i] = v] *)
Definition set_location (est : ref) (i : nat) (v : Loc) : M unit :=
  fun w =>
    match heap w !! est with
    | Some locs =>
        if i <? length locs
        then (Ok tt, mk_world (_A w) (<[est := <[i := v]> locs]> (heap w))
                       (trace w ++ [Set_location est i v]))
        else (Raise IndexError, w)
    | None => (Raise IndexError, w)
    end.

Notation "x <- m ;; k" := (bind m (fun x => k))
  (at level 100, m at next level, right associativity).
Notation "m ;;; k" := (bind m (fun _ => k))
  (at level 100, right associativity).

Fixpoint for_each {X S : Type} (l : list X) (body : X -> S -> M S) (s : S) : M S :=
  match l with
  | [] => ret s
  | x :: l' => s' <- body x s ;; for_each l' body s'
  end.

(** The calls to the collaborators and to the library, with their event. *)
Definition call_steering_matrix (self : SpectrumBasedEstimatorBase)
    (p : list Loc) (w : W) (perturbations : string) : M Mat :=
  log (Call_steering_matrix p w perturbations) ;;;
  ret (steering_matrix (_design self) p w perturbations).

Definition call_f_sp (f_sp : Mat -> outcome (list Z)) (A : Mat) : M (list Z) :=
  log (Call_f_sp A) ;;; lift (f_sp A).

Definition call_peak_finder (self : SpectrumBasedEstimatorBase) (sp : ndarray)
  : M (list (list nat)) :=
  log (Call_peak_finder sp) ;;; lift (_peak_finder self sp).

Definition call_argsort (v : list Z) : M (list nat) :=
  log (Call_argsort v) ;;; ret (np_argsort v).

Definition call_sort (idx : list nat) : M (list nat) :=
  log (Call_sort idx) ;;; ret (np_sort idx).

Definition call_placement_getitem (p : list Loc) (idx : list nat) : M ref :=
  log (Call_placement_getitem idx) ;;;
  locs <- lift (getitem_array p idx) ;;
  alloc locs.

Definition call_create_refined_grids_at (g : G) (coords : list (list nat)) (density : Z)
  : M (list G) :=
  log (Call_create_refined_grids_at coords density) ;;;
  ret (create_refined_grids_at g coords density).

Definition call_create_refined_grid_at (g : G) (coord : list nat) (density : Z) : M G :=
  log (Call_create_refined_grid_at g coord density) ;;;
  ret (create_refined_grid_at g coord density).

(** *** _get_steering_matrix *)

Definition _get_steering_matrix (self : SpectrumBasedEstimatorBase) : M Mat :=
  cached <- get_A ;;
  match cached with
  | Some A => ret A
  | None =>
      A <- call_steering_matrix self
             (source_placement (_search_grid self)) (_wavelength self) "known" ;;
      (if _enable_caching self then set_A (Some A) else ret tt) ;;;
      ret A
  end.

(** *** _refine_estimates

    [est0] is the placement object whose [locations] are updated in
    place; [subgrids] is the local list the loop body reads and
    replaces entries of. *)

Definition refine_body (self : SpectrumBasedEstimatorBase)
    (f_sp : Mat -> outcome (list Z)) (est0 : ref) (density n_iters : Z)
    (r : Z) (i : nat) (subgrids : list G) : M (list G) :=
  g <- lift (getitem subgrids i) ;;
  (* Refine the i-th estimate. *)
  A <- call_steering_matrix self (source_placement g) (_wavelength self) "known" ;;
  sp <- call_f_sp f_sp A ;;
  i_max <- lift (np_argmax sp) ;;
  (* Update the initial estimates in-place. *)
  v <- lift (getitem (source_placement g) i_max) ;;
  set_location est0 i v ;;;
  if (r =? n_iters - 1)%Z then ret subgrids
  else
    (* Continue to create finer grids. *)
    peak_coord <- lift (unravel_point (shape g) i_max) ;;
    g' <- call_create_refined_grid_at g peak_coord density ;;
    ret (<[i := g']> subgrids).

Definition _refine_estimates (self : SpectrumBasedEstimatorBase)
    (f_sp : Mat -> outcome (list Z)) (est0 : ref) (peak_indices : list (list nat))
    (density n_iters : Z) : M unit :=
  log (Call_refine_estimates est0 peak_indices density n_iters) ;;;
  (* Create initial refined grids. *)
  subgrids <- call_create_refined_grids_at (_search_grid self) peak_indices density ;;
  for_each (range n_iters)
    (fun r subgrids =>
       for_each (seq 0 (length subgrids))
         (refine_body self f_sp est0 density n_iters r) subgrids)
    subgrids ;;;
  ret tt.

(** The defaults of [_refine_estimates(self, f_sp, est0, peak_indices,
    density=10, n_iters=3)]. *)
Definition default_density : Z := 10.
Definition default_n_iters : Z := 3.

(** *** _estimate *)

Definition _estimate (self : SpectrumBasedEstimatorBase)
    (f_sp : Mat -> outcome (list Z)) (k : Z)
    (return_spectrum refine_estimates : bool)
    (refinement_density refinement_iters : Z) : M (estimate_result ref) :=
  A <- _get_steering_matrix self ;;
  sp <- call_f_sp f_sp A ;;
  (* Restores the shape of the spectrum. *)
  sp <- lift (np_reshape sp (shape (_search_grid self))) ;;
  (* Find peak locations. *)
  peak_indices <- call_peak_finder self sp ;;
  first <- lift (tuple_first peak_indices) ;;
  let n_peaks := Z.of_nat (length first) in
  if (n_peaks <? k)%Z then
    (* Not enough peaks. *)
    if return_spectrum then ret (Ret3 false None None)
    else ret (Ret2 false None)
  else
    peak_values <- lift (getitem_tuple sp peak_indices) ;;
    (* Identify the k largest peaks. *)
    order <- call_argsort peak_values ;;
    let top_indices := slice_from order (- k)%Z in
    (* Filter out the peak indices of the k largest peaks. *)
    peak_indices <- lift (omap (fun axis => getitem_array axis top_indices) peak_indices) ;;
    flattened_indices <- lift (np_ravel_multi_index peak_indices (shape (_search_grid self))) ;;
    flattened_indices <- call_sort flattened_indices ;;
    estimates <- call_placement_getitem
                   (source_placement (_search_grid self)) flattened_indices ;;
    (if refine_estimates then
       (* Convert sorted flattened indices back to a tuple of coordinate
          arrays. *)
       peak_indices <- lift (np_unravel_index flattened_indices (shape (_search_grid self))) ;;
       (* density and n_iters are not passed: the defaults apply. *)
       _refine_estimates self f_sp estimates peak_indices default_density default_n_iters
     else ret tt) ;;;
    if return_spectrum then ret (Ret3 true (Some estimates) (Some sp))
    else ret (Ret2 true (Some estimates)).

End Pipeline.

(** ** Vocabulary of the properties *)

(** A flat peak of [x]: a run [l..r] of equal interior samples that is
    strictly above the sample before it and the sample after it. *)
Definition flat_peak (x : list Z) (l r : nat) : Prop :=
  1 <= l /\ l <= r /\ S r < length x /\
  (forall j, l <= j <= r -> nth j x 0%Z = nth l x 0%Z) /\
  (nth (l - 1) x 0 < nth l x 0)%Z /\
  (nth (S r) x 0 < nth l x 0)%Z.

(** A strict interior local maximum: greater than both neighbours. *)
Definition strict_local_max (x : list Z) (i : nat) : Prop :=
  1 <= i /\ S i < length x /\
  (nth (i - 1) x 0 < nth i x 0)%Z /\ (nth (S i) x 0 < nth i x 0)%Z.


(** ** Reference instances

    Small concrete collaborators on which the model can be run. *)

(** Integer scalars: every entry is real, conjugation is the identity. *)
Global Instance Z_scalars : Scalars Z Z := {
  s_zero := 0%Z;
  s_add := Z.add;
  s_mul := Z.mul;
  s_conj := fun x => x;
  s_real := fun x => x;
  r_le := Z.le
}.

Definition identity_matrix (n : nat) : list (list Z) :=
  map (fun i => map (fun j => if i =? j then 1%Z else 0%Z) (seq 0 n)) (seq 0 n).

Definition diagonal_of (R : list (list Z)) : list Z :=
  imap (fun i row => nth i row 0%Z) R.

Fixpoint ascendingb (w : list Z) : bool :=
  match w with
  | a :: ((b :: _) as w') => (a <=? b)%Z && ascendingb w'
  | _ => true
  end.

Definition is_diagonal (R : list (list Z)) : bool :=
  forallb (fun i =>
    let row := nth i R [] in
    (length row =? length R) &&
    forallb (fun j => (i =? j) || (nth j row 0 =? 0)%Z) (seq 0 (length R)))
    (seq 0 (length R)).

(** An eigen-solver for diagonal matrices whose diagonal is already in
    ascending order: the eigenvalues are the diagonal, the eigenvectors
    the unit vectors.  Any other input is rejected. *)
Definition eigh_diag (R : list (list Z)) : outcome (list Z * list (list Z)) :=
  if is_diagonal R && ascendingb (diagonal_of R)
  then Ok (diagonal_of R, identity_matrix (length R))
  else Raise LinAlgError.

(** The diagonal matrix diag(2, 5). *)
Definition R_2_5 : list (list Z) := [[2; 0]; [0; 5]]%Z.

(** The positions (in the peak list) that the slice [argsort(values)[-k:]]
    keeps. *)
Definition top_positions (vals : list Z) (k : Z) : list nat :=
  slice_from (np_argsort vals) (- k)%Z.

(** The point number [j] of a tuple of coordinate arrays, and its
    flattened index on a grid of shape [shp]. *)
Definition peak_point (axes : list (list nat)) (j : nat) : list nat :=
  map (fun axis => nth j axis 0) axes.

Definition peak_offset (shp : list nat) (axes : list (list nat)) (j : nat) : nat :=
  ravel_offset shp (peak_point axes j) 0.

(** The sorted flattened indices of the peaks kept for [k]. *)
Definition selected_offsets (shp : list nat) (axes : list (list nat))
    (vals : list Z) (k : Z) : list nat :=
  np_sort (map (peak_offset shp axes) (top_positions vals k)).

Section PipelineVocabulary.
Context {D W G Loc Mat : Type}.
Context `{ArrayDesign D Loc W Mat} `{SearchGrid G Loc}.

(** The steering matrix of the search grid of an estimator. *)
Definition grid_steering_matrix (self : @SpectrumBasedEstimatorBase D W G) : Mat :=
  steering_matrix (_design self)
    (source_placement (_search_grid self)) (_wavelength self) "known".

(** The event of computing it. *)
Definition grid_steering_call (self : @SpectrumBasedEstimatorBase D W G)
  : @event W G Loc Mat :=
  Call_steering_matrix (source_placement (_search_grid self)) (_wavelength self) "known".

(** [n] successive calls of [_get_steering_matrix], with their results. *)
Fixpoint get_steering_matrix_times (self : @SpectrumBasedEstimatorBase D W G)
    (n : nat) : @M W G Loc Mat (list Mat) :=
  match n with
  | O => ret []
  | S n' =>
      bind (_get_steering_matrix self) (fun A =>
      bind (get_steering_matrix_times self n') (fun rest => ret (A :: rest)))
  end.

(** The world after some more events. *)
Definition add_events (w : @world W G Loc Mat) (evs : list event) : world :=
  mk_world (_A w) (heap w) (trace w ++ evs).
(** What [_estimate] returns when it resolves. *)
Definition resolved_result (return_spectrum : bool) (est : ref) (sp : ndarray)
  : estimate_result ref :=
  if return_spectrum then Ret3 true (Some est) (Some sp) else Ret2 true (Some est).

(** What it returns when it does not. *)
Definition unresolved_result (return_spectrum : bool) : estimate_result ref :=
  if return_spectrum then Ret3 false None None else Ret2 false None.

(** Where the spectrum of a sub-grid peaks: the flattened argmax of
    [f_sp] on the steering matrix of the sub-grid, and the sub-grid
    point there. *)
Definition locate (self : @SpectrumBasedEstimatorBase D W G)
    (f_sp : Mat -> outcome (list Z)) (g : G) : outcome (nat * Loc) :=
  obind (f_sp (steering_matrix (_design self) (source_placement g)
                 (_wavelength self) "known")) (fun sp =>
  obind (np_argmax sp) (fun i_max =>
  obind (getitem (source_placement g) i_max) (fun v => Ok (i_max, v)))).

(** The finer sub-grid built around that point. *)
Definition zoom (self : @SpectrumBasedEstimatorBase D W G)
    (f_sp : Mat -> outcome (list Z)) (density : Z) (g : G) : outcome G :=
  obind (locate self f_sp g) (fun '(i_max, _) =>
  obind (unravel_point (shape g) i_max) (fun coord =>
  Ok (create_refined_grid_at g coord density))).

Definition zoom_or (self : @SpectrumBasedEstimatorBase D W G)
    (f_sp : Mat -> outcome (list Z)) (density : Z) (g : G) : G :=
  match zoom self f_sp density g with
  | Ok g' => g'
  | Raise _ => g
  end.

(** The sub-grid of an estimate in round [r], given its initial one. *)
Definition subgrid_at (self : @SpectrumBasedEstimatorBase D W G)
    (f_sp : Mat -> outcome (list Z)) (density : Z) (r : nat) (g0 : G) : G :=
  Nat.iter r (zoom_or self f_sp density) g0.

(** The events of one pass of the loop body for estimate [i] on the
    sub-grid [g]; [final] tells whether this is the last round. *)
Definition body_events (self : @SpectrumBasedEstimatorBase D W G)
    (f_sp : Mat -> outcome (list Z)) (est0 : ref) (density : Z)
    (final : bool) (i : nat) (g : G) : list (@event W G Loc Mat) :=
  match locate self f_sp g with
  | Ok (i_max, v) =>
      [Call_steering_matrix (source_placement g) (_wavelength self) "known";
       Call_f_sp (steering_matrix (_design self) (source_placement g)
                    (_wavelength self) "known");
       Set_location est0 i v] ++
      (if final then []
       else [Call_create_refined_grid_at g (unravel_offset (shape g) i_max) density])
  | Raise _ => []
  end.

Definition round_events (self : @SpectrumBasedEstimatorBase D W G)
    (f_sp : Mat -> outcome (list Z)) (est0 : ref) (density : Z)
    (final : bool) (subgrids : list G) : list (@event W G Loc Mat) :=
  concat (imap (body_events self f_sp est0 density final) subgrids).

(** The test [r == n_iters - 1]. *)
Definition is_final (n_iters : Z) (r : nat) : bool :=
  (Z.of_nat r =? n_iters - 1)%Z.

(** The events of a whole refinement that runs to its end. *)
Definition refinement_events (self : @SpectrumBasedEstimatorBase D W G)
    (f_sp : Mat -> outcome (list Z)) (est0 : ref) (peak_indices : list (list nat))
    (density n_iters : Z) : list (@event W G Loc Mat) :=
  let subgrids0 := create_refined_grids_at (_search_grid self) peak_indices density in
  [Call_refine_estimates est0 peak_indices density n_iters;
   Call_create_refined_grids_at peak_indices density] ++
  concat (map (fun r =>
                 round_events self f_sp est0 density (is_final n_iters r)
                   (map (subgrid_at self f_sp density r) subgrids0))
            (seq 0 (Z.to_nat n_iters))).

(** The values written to [est.locations[i]], in order. *)
Definition writes_to (est : ref) (i : nat) (t : list (@event W G Loc Mat)) : list Loc :=
  flat_map (fun ev =>
              match ev with
              | Set_location est' i' v => if (est' =? est) && (i' =? i) then [v] else []
              | _ => []
              end) t.

(** The sub-grids a finer sub-grid was built from, in order. *)
Definition refined_from (t : list (@event W G Loc Mat)) : list G :=
  flat_map (fun ev =>
              match ev with
              | Call_create_refined_grid_at g _ _ => [g]
              | _ => []
              end) t.

(** The arguments of the calls of [_refine_estimates] in a trace. *)
Definition refine_calls (t : list (@event W G Loc Mat))
  : list (ref * list (list nat) * Z * Z) :=
  flat_map (fun ev =>
              match ev with
              | Call_refine_estimates est0 peaks density n_iters =>
                  [(est0, peaks, density, n_iters)]
              | _ => []
              end) t.
End PipelineVocabulary.

(** A one-dimensional grid of [lg_count] angles [lg_start + i * lg_step].
    The refined grid around the point [c] spans its two neighbours with
    [2 * density + 1] points. *)
Record line_grid : Type := mk_line_grid {
  lg_start : Z;
  lg_step : Z;
  lg_count : nat
}.

Definition line_points (g : line_grid) : list Z :=
  map (fun i => lg_start g + Z.of_nat i * lg_step g)%Z (seq 0 (lg_count g)).

Definition line_refine (g : line_grid) (coord : list nat) (density : Z) : line_grid :=
  let c := Z.of_nat (nth 0 coord 0) in
  mk_line_grid (lg_start g + (c - 1) * lg_step g)%Z (lg_step g / density)%Z
    (2 * Z.to_nat density + 1).

Global Instance line_grid_search : SearchGrid line_grid Z := {
  source_placement := line_points;
  shape := fun g => [lg_count g];
  create_refined_grids_at := fun g coords density =>
    map (fun c => line_refine g [c] density) (nth 0 coords []);
  create_refined_grid_at := line_refine
}.

(** An array design whose "steering matrix" has the angle itself as the
    column of an angle. *)
Global Instance angle_design : ArrayDesign unit Z Z (list Z) := {
  steering_matrix := fun _ p _ _ => p
}.

(** A spectrum with a higher lobe at the angle 1234 and a lower one at
    4321. *)
Definition two_lobes (A : list Z) : outcome (list Z) :=
  Ok (map (fun a => Z.max (10000 - Z.abs (a - 1234)) (9000 - Z.abs (a - 4321)))%Z A).

(** An estimator on the grid 0, 1000, ..., 6000 with the default peak
    finder and caching. *)
Definition demo_estimator : @SpectrumBasedEstimatorBase unit Z line_grid := {|
  _design := tt;
  _wavelength := 1%Z;
  _search_grid := mk_line_grid 0 1000 7;
  _peak_finder := fun sp => Ok (find_peaks_simple sp);
  _enable_caching := true
|}.

Definition demo_world : @world Z line_grid Z (list Z) := init_world.

(** The demo estimator's steering matrix, the state after it was cached,
    and the spectrum of [two_lobes] on the grid with its two peaks. *)
Definition demo_A : list Z := [0; 1000; 2000; 3000; 4000; 5000; 6000]%Z.

Definition demo_cached : @world Z line_grid Z (list Z) :=
  mk_world (Some demo_A) [] [grid_steering_call demo_estimator].

Definition demo_flat : list Z := [8766; 9766; 9234; 8234; 8679; 8321; 7321]%Z.

Definition demo_sp : ndarray := mk_ndarray [7] demo_flat.

Definition demo_peaks : list (list nat) := [[1; 4]].

Definition demo_values : list Z := [9766; 8679]%Z.

(** A state holding one placement object with the two coarse estimates. *)
Definition demo_coarse : @world Z line_grid Z (list Z) :=
  mk_world None [[1000; 4000]%Z] [].

(** The state a refinement with density 10 and 3 rounds leaves behind. *)
Definition demo_refined : @world Z line_grid Z (list Z) :=
  mk_world None [[1234; 4321]%Z]
    (refinement_events demo_estimator two_lobes 0 demo_peaks 10 3).

(** The demo estimator with another peak finder. *)
Definition demo_estimator_with (finder : ndarray -> outcome (list (list nat)))
  : @SpectrumBasedEstimatorBase unit Z line_grid := {|
  _design := tt;
  _wavelength := 1%Z;
  _search_grid := mk_line_grid 0 1000 7;
  _peak_finder := finder;
  _enable_caching := true
|}.

(** The initial sub-grids of the demo estimator around its two peaks. *)
Definition demo_subgrids : list line_grid :=
  create_refined_grids_at (_search_grid demo_estimator) demo_peaks 10.

(** A 3 x 3 array with its largest sample in a corner. *)
Definition demo_2d : ndarray := mk_ndarray [3; 3] [0; 1; 0; 1; 5; 1; 0; 1; 7]%Z.

(** A constant 2 x 3 array. *)
Definition demo_flat_2d : ndarray := mk_ndarray [2; 3] [4; 4; 4; 4; 4; 4]%Z.

(** * Properties *)

(** ** Slices *)

Lemma slice_index_zero n : slice_index n 0 = 0.
Proof. unfold slice_index. simpl. lia. Qed.

Lemma slice_index_neg n (k : Z) :
  (0 < k)%Z -> slice_index n (- k) = n - Z.to_nat k.
Proof.
  intros Hk. unfold slice_index.
  destruct (Z.ltb_spec (- k) 0); lia.
Qed.

Lemma slice_index_le n i : slice_index n i <= n.
Proof. unfold slice_index. destruct (Z.ltb_spec i 0); lia. Qed.

Lemma slice_to_length {A} (l : list A) i :
  length (slice_to l i) = slice_index (length l) i.
Proof.
  unfold slice_to. rewrite length_take. pose proof (slice_index_le (length l) i). lia.
Qed.

Lemma slice_from_length {A} (l : list A) i :
  length (slice_from l i) = length l - slice_index (length l) i.
Proof. unfold slice_from. by rewrite length_drop. Qed.

(** ** get_noise_subspace *)

Section NoiseSubspaceFacts.
Context {F Rl : Type} `{Scalars F Rl}.
Implicit Types (R E N : list (list F)) (w : list Rl).
Implicit Types (eigh : list (list F) -> outcome (list Rl * list (list F))).

Lemma get_noise_subspace_ok eigh R k w E :
  eigh R = Ok (w, E) ->
  get_noise_subspace eigh R k = Ok (map (fun row => slice_to row (- k)%Z) E).
Proof. intros HE. unfold get_noise_subspace. by rewrite HE. Qed.

Lemma get_noise_subspace_raise eigh R k e :
  get_noise_subspace eigh R k = Raise e <-> eigh R = Raise e.
Proof.
  unfold get_noise_subspace. destruct (eigh R) as [[w E]|e']; simpl; split; congruence.
Qed.

Lemma slice_columns_matrix rows cols E (i : Z) :
  is_matrix rows cols E ->
  is_matrix rows (slice_index cols i) (map (fun row => slice_to row i) E).
Proof.
  intros [Hr Hc]. split; [by rewrite length_map|].
  rewrite Forall_map. eapply Forall_impl; [exact Hc|].
  intros row Hrow. simpl. by rewrite slice_to_length, Hrow.
Qed.

Lemma column_slice_to E (i : Z) j cols :
  Forall (fun row => length row = cols) E ->
  j < slice_index cols i ->
  column j (map (fun row => slice_to row i) E) = column j E.
Proof.
  intros Hc Hj. unfold column. rewrite map_map.
  apply map_ext_in. intros row Hin.
  rewrite Forall_forall in Hc. rewrite <- list_elem_of_In in Hin.
  specialize (Hc row Hin).
  unfold slice_to. rewrite Hc.
  rewrite <- (take_drop (slice_index cols i) row) at 2.
  rewrite app_nth1; [done|].
  rewrite length_take. pose proof (slice_index_le cols i). lia.
Qed.
End NoiseSubspaceFacts.

Section NoiseSubspaceClaims.
Context {F Rl : Type} `{Scalars F Rl}.
Implicit Types (R E N : list (list F)) (w : list Rl).
Implicit Types (eigh : list (list F) -> outcome (list Rl * list (list F))).

(** C7.  For an n x n Hermitian [R] on which the eigen-solver keeps its
    contract (ascending eigenvalues, j-th column an eigenvector of the
    j-th eigenvalue) and [0 < k < n], [get_noise_subspace] returns an
    n x (n-k) matrix; its columns are the first n-k columns of the
    eigenvector matrix, each an eigenvector of [R] for an eigenvalue
    that is below every one of the k excluded (largest) eigenvalues. *)
Theorem get_noise_subspace_smallest_eigenvectors eigh R n (k : Z) :
  is_matrix n n R ->
  hermitian n R ->
  (hermitian n R -> eigh_contract n R (eigh R)) ->
  (0 < k < Z.of_nat n)%Z ->
  exists w E N,
    eigh R = Ok (w, E) /\
    get_noise_subspace eigh R k = Ok N /\
    is_matrix n (n - Z.to_nat k) N /\
    forall j, j < n - Z.to_nat k ->
      column j N = column j E /\
      exists lam, w !! j = Some lam /\
        eigenpair R lam (column j N) /\
        forall j' lam', n - Z.to_nat k <= j' -> w !! j' = Some lam' -> r_le lam lam'.
Proof.
  intros _ Hherm Hcontract Hk.
  destruct (Hcontract Hherm) as (w & E & HE & Hw & HEm & Hasc & Heig).
  exists w, E, (map (fun row => slice_to row (- k)%Z) E).
  split; [done|]. split; [by apply get_noise_subspace_ok with w|].
  assert (Hidx : slice_index n (- k) = n - Z.to_nat k)
    by (apply slice_index_neg; lia).
  split; [rewrite <- Hidx; by apply slice_columns_matrix|].
  intros j Hj.
  assert (Hcol : column j (map (fun row => slice_to row (- k)%Z) E) = column j E).
  { apply column_slice_to with n; [apply HEm | lia]. }
  split; [done|].
  destruct (lookup_lt_is_Some_2 w j) as [lam Hlam]; [lia|].
  exists lam. split; [done|]. split.
  - rewrite Hcol. by apply Heig.
  - intros j' lam' Hj' Hlam'. apply (Hasc j j' lam lam'); [lia|done|done].
Qed.

(** C4 (as amended).  A source count [k >= n] does not make
    [get_noise_subspace] fail: the call raises exactly when the
    eigen-solver raises on [R], and when the solver returns an n x n
    eigenvector matrix the result is the n x 0 matrix. *)
Theorem get_noise_subspace_large_k eigh R n (k : Z) :
  (Z.of_nat n <= k)%Z ->
  (forall e, get_noise_subspace eigh R k = Raise e <-> eigh R = Raise e) /\
  (forall w E, eigh R = Ok (w, E) -> is_matrix n n E ->
     exists N, get_noise_subspace eigh R k = Ok N /\ is_matrix n 0 N).
Proof.
  intros Hk. split; [intros e; apply get_noise_subspace_raise|].
  intros w E HE HEm.
  exists (map (fun row => slice_to row (- k)%Z) E).
  split; [by apply get_noise_subspace_ok with w|].
  assert (Hidx : slice_index n (- k) = 0).
  { destruct (decide (k = 0%Z)) as [->|Hne].
    - apply slice_index_zero.
    - rewrite slice_index_neg; lia. }
  rewrite <- Hidx. by apply slice_columns_matrix.
Qed.

(** C10.  With [k = 0] the slice [E[:, :-0]] is [E[:, :0]]: the result
    has the rows of the eigenvector matrix but no columns, so for
    [n > 0] it is not the full eigenvector basis. *)
Theorem get_noise_subspace_zero_sources eigh R n w E :
  eigh R = Ok (w, E) ->
  is_matrix n n E ->
  exists N, get_noise_subspace eigh R 0 = Ok N /\
    is_matrix n 0 N /\ Forall (fun row => row = []) N /\ (0 < n -> N <> E).
Proof.
  intros HE HEm.
  exists (map (fun row => slice_to row (- 0)%Z) E).
  split; [by apply get_noise_subspace_ok with w|].
  assert (HN : is_matrix n 0 (map (fun row => slice_to row (- 0)%Z) E)).
  { rewrite <- (slice_index_zero n). by apply slice_columns_matrix. }
  split; [done|]. split.
  - eapply Forall_impl; [apply HN|]. intros row Hrow. by apply nil_length_inv.
  - intros Hn Heq. destruct HEm as [Hrows Hcols], HN as [_ Hcols0].
    rewrite Heq in Hcols0. destruct E as [|row E']; simpl in *; [lia|].
    inversion Hcols; inversion Hcols0; subst. lia.
Qed.
End NoiseSubspaceClaims.

Lemma R_2_5_matrix : is_matrix 2 2 R_2_5.
Proof. split; [done|]. repeat constructor. Qed.

Lemma R_2_5_hermitian : hermitian 2 R_2_5.
Proof.
  intros i j Hi Hj.
  destruct i as [|[|i]], j as [|[|j]]; try lia; reflexivity.
Qed.

Lemma eigh_diag_R_2_5_contract : eigh_contract 2 R_2_5 (eigh_diag R_2_5).
Proof.
  exists [2; 5]%Z, [[1; 0]; [0; 1]]%Z.
  split; [reflexivity|]. split; [reflexivity|].
  split; [split; [done|repeat constructor]|]. split.
  - intros i j a b Hij Ha Hb.
    destruct i as [|[|i]], j as [|[|j]]; simpl in *; simplify_eq; try lia;
      unfold r_le; simpl; lia.
  - intros j lam Hlam.
    destruct j as [|[|j]]; simpl in *; simplify_eq; split; (discriminate || reflexivity).
Qed.

Lemma get_noise_subspace_smallest_eigenvectors_witness :
  exists w E N,
    eigh_diag R_2_5 = Ok (w, E) /\
    get_noise_subspace eigh_diag R_2_5 1 = Ok N /\
    is_matrix 2 (2 - Z.to_nat 1) N /\
    forall j, j < 2 - Z.to_nat 1 ->
      column j N = column j E /\
      exists lam, w !! j = Some lam /\
        eigenpair R_2_5 lam (column j N) /\
        forall j' lam', 2 - Z.to_nat 1 <= j' -> w !! j' = Some lam' -> r_le lam lam'.
Proof.
  apply (get_noise_subspace_smallest_eigenvectors eigh_diag R_2_5 2 1).
  - exact R_2_5_matrix.
  - exact R_2_5_hermitian.
  - intros _. exact eigh_diag_R_2_5_contract.
  - lia.
Defined.

(** C4 as stated fails: on diag(2, 5) with [k = 2 >= n] the call returns
    (the 2 x 0 matrix) and raises nothing. *)
Lemma get_noise_subspace_large_k_does_not_raise :
  is_matrix 2 2 R_2_5 /\ (Z.of_nat 2 <= 2)%Z /\
  get_noise_subspace eigh_diag R_2_5 2 = Ok [[]; []] /\
  ~ (exists e, get_noise_subspace eigh_diag R_2_5 2 = Raise e).
Proof.
  split; [exact R_2_5_matrix|]. split; [lia|]. split; [reflexivity|].
  intros [e He]. vm_compute in He. discriminate.
Qed.

Lemma get_noise_subspace_large_k_witness :
  (forall e, get_noise_subspace eigh_diag R_2_5 3 = Raise e <-> eigh_diag R_2_5 = Raise e) /\
  (forall w E, eigh_diag R_2_5 = Ok (w, E) -> is_matrix 2 2 E ->
     exists N, get_noise_subspace eigh_diag R_2_5 3 = Ok N /\ is_matrix 2 0 N).
Proof.
  apply (get_noise_subspace_large_k eigh_diag R_2_5 2 3). lia.
Defined.

Lemma get_noise_subspace_zero_sources_witness :
  exists N, get_noise_subspace eigh_diag R_2_5 0 = Ok N /\
    is_matrix 2 0 N /\ Forall (fun row => row = []) N /\
    (0 < 2 -> N <> [[1; 0]; [0; 1]]%Z).
Proof.
  apply (get_noise_subspace_zero_sources eigh_diag R_2_5 2 [2; 5]%Z).
  - reflexivity.
  - split; [done|repeat constructor].
Defined.

(** ** find_peaks_simple on 1-d arrays *)

Lemma strict_local_max_flat_peak x i :
  strict_local_max x i <-> flat_peak x i i.
Proof.
  unfold strict_local_max, flat_peak. split.
  - intros (? & ? & ? & ?). repeat split; try done.
    intros j Hj. by replace j with i by lia.
  - intros (? & ? & ? & ? & ? & ?). done.
Qed.

Lemma plateau_end_spec x v i_max fuel i_ahead :
  i_ahead <= i_max ->
  i_max <= i_ahead + fuel ->
  let e := plateau_end x v i_max fuel i_ahead in
  i_ahead <= e <= i_max /\
  (forall j, i_ahead <= j < e -> nth j x 0%Z = v) /\
  (e = i_max \/ nth e x 0%Z <> v).
Proof.
  revert i_ahead. induction fuel as [|fuel IH]; intros i_ahead Hle Hfuel; simpl.
  - split; [lia|]. split; [intros; lia|]. left; lia.
  - destruct (Nat.ltb_spec i_ahead i_max) as [Hlt|Hge]; simpl.
    + destruct (Z.eqb_spec (nth i_ahead x 0%Z) v) as [Heq|Hne].
      * destruct (IH (S i_ahead)) as (Hb & Hrun & Hstop); [lia|lia|].
        split; [lia|]. split; [|done].
        intros j Hj. destruct (decide (j = i_ahead)) as [->|]; [done|].
        apply Hrun. lia.
      * split; [lia|]. split; [intros; lia|]. by right.
    + split; [lia|]. split; [intros; lia|]. left; lia.
Qed.

Lemma local_maxima_loop_spec x fuel i m :
  1 <= i ->
  length x - 1 <= i + fuel ->
  In m (local_maxima_loop x (length x - 1) fuel i) <->
  exists l r, flat_peak x l r /\ i <= l /\ m = (l + r) / 2.
Proof.
  set (i_max := length x - 1).
  revert i. induction fuel as [|fuel IH]; intros i Hi Hfuel; simpl.
  - split; [done|]. intros (l & r & (? & ? & ? & _) & ? & _). lia.
  - destruct (Nat.ltb_spec i i_max) as [Hlt|Hge]; cycle 1.
    { split; [done|]. intros (l & r & (? & ? & ? & _) & ? & _). lia. }
    destruct (Z.ltb_spec (nth (i - 1) x 0%Z) (nth i x 0%Z)) as [Hrise|Hflat]; cycle 1.
    { rewrite IH by lia. split.
      - intros (l & r & Hp & ? & ->). exists l, r. split_and!; [done|lia|done].
      - intros (l & r & Hp & Hl & ->). exists l, r. split_and!; [done| |done].
        destruct (decide (l = i)) as [->|]; [|lia].
        destruct Hp as (_ & _ & _ & _ & ? & _). lia. }
    destruct (plateau_end_spec x (nth i x 0%Z) i_max (i_max - S i) (S i))
      as ((Hlo & Hhi) & Hrun & Hstop); [lia|lia|].
    set (i_ahead := plateau_end x (nth i x 0%Z) i_max (i_max - S i) (S i)) in *.
    assert (Hrun' : forall j, i <= j < i_ahead -> nth j x 0%Z = nth i x 0%Z).
    { intros j Hj. destruct (decide (j = i)) as [->|]; [done|]. apply Hrun. lia. }
    (* a flat peak that starts at [i] ends right before [i_ahead] *)
    assert (Hend : forall r, flat_peak x i r ->
              r = i_ahead - 1 /\ (nth i_ahead x 0 < nth i x 0)%Z).
    { intros r (_ & Hir & Hr & Heq & _ & Hdrop).
      destruct (decide (r < i_ahead - 1)) as [Hsmall|Hbig].
      { rewrite (Hrun' (S r)) in Hdrop by lia. lia. }
      destruct (decide (r = i_ahead - 1)) as [->|Hne].
      { split; [done|]. by replace (S (i_ahead - 1)) with i_ahead in Hdrop by lia. }
      destruct Hstop as [Hstop|Hstop]; [unfold i_max in *; lia|].
      exfalso. apply Hstop. apply Heq. lia. }
    (* no flat peak starts strictly inside the run, nor at [i_ahead] when
       the run is followed by a smaller sample *)
    assert (Hnone : forall l r, flat_peak x l r -> i < l -> l < i_ahead -> False).
    { intros l r (_ & _ & _ & _ & Hup & _) Hil Hl.
      rewrite (Hrun' l), (Hrun' (l - 1)) in Hup by lia. lia. }
    destruct (Z.ltb_spec (nth i_ahead x 0%Z) (nth i x 0%Z)) as [Hdrop|Hnodrop].
    + simpl. rewrite IH by lia. split.
      * intros [<-|(l & r & Hp & ? & ->)].
        -- exists i, (i_ahead - 1). split_and!; [|lia|done].
           unfold flat_peak. split_and!; try lia; try done.
           ++ intros j Hj. apply Hrun'. lia.
           ++ by replace (S (i_ahead - 1)) with i_ahead by lia.
        -- exists l, r. split_and!; [done|lia|done].
      * intros (l & r & Hp & Hl & ->).
        destruct (decide (l = i)) as [->|Hne].
        { left. destruct (Hend r Hp) as [-> _]. done. }
        right. exists l, r. split_and!; [done| |done].
        destruct (decide (l < i_ahead)) as [Hin|Hout];
          [exfalso; apply (Hnone l r Hp); lia|].
        destruct (decide (l = i_ahead)) as [->|]; [|lia].
        destruct Hp as (_ & _ & _ & _ & Hup & _).
        rewrite (Hrun' (i_ahead - 1)) in Hup by lia. lia.
    + rewrite IH by lia. split.
      * intros (l & r & Hp & ? & ->). exists l, r. split_and!; [done|lia|done].
      * intros (l & r & Hp & Hl & ->). exists l, r. split_and!; [done| |done].
        destruct (decide (l = i)) as [->|]; [|lia].
        destruct (Hend r Hp) as [_ ?]. lia.
Qed.

Lemma local_maxima_1d_spec x m :
  In m (local_maxima_1d x) <-> exists l r, flat_peak x l r /\ m = (l + r) / 2.
Proof.
  unfold local_maxima_1d. rewrite local_maxima_loop_spec by lia.
  split.
  - intros (l & r & ? & _ & ?). by exists l, r.
  - intros (l & r & Hp & ?). exists l, r. split_and!; [done| |done].
    by destruct Hp as (? & _).
Qed.

Lemma flat_peak_midpoint x l r :
  flat_peak x l r ->
  let m := (l + r) / 2 in
  l <= m <= r /\
  (nth (m - 1) x 0 <= nth m x 0)%Z /\ (nth (S m) x 0 <= nth m x 0)%Z.
Proof.
  intros (Hl & Hlr & Hr & Heq & Hup & Hdown) m.
  assert (Hm : l <= m <= r).
  { unfold m. split.
    - apply Nat.div_le_lower_bound; lia.
    - apply Nat.Div0.div_le_upper_bound. lia. }
  split; [done|].
  rewrite (Heq m) by lia. split.
  - destruct (decide (m = l)) as [->|]; [lia|]. rewrite (Heq (m - 1)) by lia. lia.
  - destruct (decide (m = r)) as [->|]; [lia|]. rewrite (Heq (S m)) by lia. lia.
Qed.

(** C8 (as amended).  On a 1-d array [find_peaks_simple] returns one
    coordinate array.  It holds exactly the midpoints (rounded down) of the
    flat peaks of the input; every reported index is interior (neither the
    first nor the last index) and no neighbour of it is greater; every
    strict interior local maximum is reported; and on [0,1,0,2,0] the
    result is the indices 1 and 3. *)
Theorem find_peaks_simple_1d (x : ndarray) :
  ndim x = 1 ->
  exists peaks,
    find_peaks_simple x = [peaks] /\
    (forall m, In m peaks <->
       exists l r, flat_peak (nd_data x) l r /\ m = (l + r) / 2) /\
    (forall m, In m peaks ->
       1 <= m /\ S m < length (nd_data x) /\
       (nth (m - 1) (nd_data x) 0 <= nth m (nd_data x) 0)%Z /\
       (nth (S m) (nd_data x) 0 <= nth m (nd_data x) 0)%Z) /\
    (forall i, strict_local_max (nd_data x) i -> In i peaks) /\
    find_peaks_simple (mk_ndarray [5] [0; 1; 0; 2; 0]%Z) = [[1; 3]].
Proof.
  intros Hdim. exists (local_maxima_1d (nd_data x)).
  split; [unfold find_peaks_simple, find_peaks; by rewrite Hdim|].
  split; [apply local_maxima_1d_spec|]. split; [|split; [|reflexivity]].
  - intros m (l & r & Hp & ->)%local_maxima_1d_spec.
    destruct (flat_peak_midpoint _ _ _ Hp) as (Hm & Hleft & Hright).
    destruct Hp as (? & ? & ? & _). split_and!; [lia|lia|done|done].
  - intros i Hi. apply local_maxima_1d_spec. exists i, i.
    split; [by apply strict_local_max_flat_peak|].
    replace (i + i) with (i * 2) by lia. by rewrite Nat.div_mul.
Qed.

Lemma find_peaks_simple_1d_witness :
  exists peaks,
    find_peaks_simple (mk_ndarray [6] [0; 3; 0; 5; 5; 0]%Z) = [peaks] /\
    (forall m, In m peaks <->
       exists l r, flat_peak [0; 3; 0; 5; 5; 0]%Z l r /\ m = (l + r) / 2) /\
    (forall m, In m peaks ->
       1 <= m /\ S m < 6 /\
       (nth (m - 1) [0; 3; 0; 5; 5; 0] 0 <= nth m [0; 3; 0; 5; 5; 0] 0)%Z /\
       (nth (S m) [0; 3; 0; 5; 5; 0] 0 <= nth m [0; 3; 0; 5; 5; 0] 0)%Z) /\
    (forall i, strict_local_max [0; 3; 0; 5; 5; 0]%Z i -> In i peaks) /\
    find_peaks_simple (mk_ndarray [5] [0; 1; 0; 2; 0]%Z) = [[1; 3]].
Proof.
  apply (find_peaks_simple_1d (mk_ndarray [6] [0; 3; 0; 5; 5; 0]%Z)).
  reflexivity.
Defined.

(** C8 as stated fails on a flat peak: on [0,1,1,0] index 1 is reported
    although its right neighbour is not smaller. *)
Lemma find_peaks_simple_reports_flat_peak :
  ndim (mk_ndarray [4] [0; 1; 1; 0]%Z) = 1 /\
  find_peaks_simple (mk_ndarray [4] [0; 1; 1; 0]%Z) = [[1]] /\
  ~ strict_local_max [0; 1; 1; 0]%Z 1.
Proof.
  split; [reflexivity|]. split; [reflexivity|].
  intros (_ & _ & _ & Hright). simpl in Hright. lia.
Qed.

(** ** Array primitives *)

Lemma omap_ok_map {A B} (f : A -> outcome B) (g : A -> B) (l : list A) :
  (forall a, In a l -> f a = Ok (g a)) -> omap f l = Ok (map g l).
Proof.
  induction l as [|a l IH]; intros Hf; simpl; [done|].
  rewrite Hf by (by left). simpl. rewrite IH; [done|].
  intros b Hb. apply Hf. by right.
Qed.

Lemma omap_ok_inv {A B} (f : A -> outcome B) (l : list A) (bs : list B) :
  omap f l = Ok bs -> Forall2 (fun a b => f a = Ok b) l bs.
Proof.
  revert bs. induction l as [|a l IH]; intros bs Hbs; simpl in Hbs.
  - injection Hbs as <-. constructor.
  - destruct (f a) as [b|] eqn:Hfa; simpl in Hbs; [|done].
    destruct (omap f l) as [bs'|] eqn:Hl; simpl in Hbs; [|done].
    injection Hbs as <-. constructor; [done|]. by apply IH.
Qed.

Lemma omap_length {A B} (f : A -> outcome B) (l : list A) (bs : list B) :
  omap f l = Ok bs -> length bs = length l.
Proof. intros Hbs%omap_ok_inv. symmetry. by eapply Forall2_length. Qed.

Lemma getitem_array_ok {A} (d : A) (a : list A) (idx : list nat) :
  (forall j, In j idx -> j < length a) ->
  getitem_array a idx = Ok (map (fun j => nth j a d) idx).
Proof.
  intros Hidx. apply omap_ok_map. intros j Hj.
  destruct (lookup_lt_is_Some_2 a j (Hidx j Hj)) as [x Hx].
  rewrite Hx. simpl. f_equal. symmetry. by apply nth_lookup_Some with (d := d).
Qed.

Lemma map_nth_seq {A B} (d : A) (f : A -> B) (l : list A) :
  map (fun i => f (nth i l d)) (seq 0 (length l)) = map f l.
Proof.
  rewrite <- (map_map (fun i => nth i l d) f). f_equal.
  apply nth_ext with (d := d) (d' := d).
  - by rewrite length_map, length_seq.
  - intros i Hi. rewrite length_map, length_seq in Hi.
    rewrite (nth_indep _ d (nth 0 l d)) by (by rewrite length_map, length_seq).
    rewrite (map_nth (fun i => nth i l d) (seq 0 (length l)) 0 i).
    by rewrite seq_nth.
Qed.

(** *** Tuples of coordinate arrays *)

Lemma points_of_ok (first : list nat) (rest : list (list nat)) :
  Forall (fun axis => length axis = length first) (first :: rest) ->
  points_of (first :: rest) =
    Ok (map (peak_point (first :: rest)) (seq 0 (length first))).
Proof.
  intros Hlen. unfold points_of.
  replace (forallb _ (first :: rest)) with true; cycle 1.
  { symmetry. apply forallb_forall. intros axis Hin.
    rewrite Forall_forall in Hlen. apply Nat.eqb_eq, Hlen.
    by apply list_elem_of_In. }
  apply omap_ok_map. intros j Hj%in_seq.
  unfold peak_point. apply omap_ok_map. intros axis Hin.
  unfold axis_get. rewrite Forall_forall in Hlen.
  specialize (Hlen axis (proj2 (list_elem_of_In _ _) Hin)).
  destruct (lookup_lt_is_Some_2 axis j) as [c Hc]; [lia|].
  rewrite Hc. simpl. f_equal. symmetry. by apply nth_lookup_Some with (d := 0).
Qed.

Lemma points_of_same_length (first : list nat) (rest : list (list nat)) pts :
  points_of (first :: rest) = Ok pts ->
  Forall (fun axis => length axis = length first) (first :: rest).
Proof.
  unfold points_of. destruct (forallb _ (first :: rest)) eqn:Hall; [|done].
  intros _. rewrite Forall_forall. intros axis Hin.
  rewrite forallb_forall in Hall. apply Nat.eqb_eq, Hall.
  by apply list_elem_of_In.
Qed.

(** Indexing every coordinate array with the same positions selects the
    points at these positions. *)
Lemma peak_point_select (axes : list (list nat)) (top : list nat) (i : nat) :
  i < length top ->
  peak_point (map (fun axis => map (fun j => nth j axis 0) top) axes) i =
  peak_point axes (nth i top 0).
Proof.
  intros Hi. unfold peak_point. rewrite map_map. apply map_ext. intros axis.
  rewrite (nth_indep _ 0 (nth 0 axis 0)) by (by rewrite length_map).
  by rewrite (map_nth (fun j => nth j axis 0) top 0 i).
Qed.

Lemma select_axes_ok (first : list nat) (rest : list (list nat)) (top : list nat) :
  Forall (fun axis => length axis = length first) (first :: rest) ->
  (forall j, In j top -> j < length first) ->
  omap (fun axis => getitem_array axis top) (first :: rest) =
    Ok (map (fun axis => map (fun j => nth j axis 0) top) (first :: rest)).
Proof.
  intros Hlen Htop. apply omap_ok_map. intros axis Hin.
  apply getitem_array_ok. intros j Hj.
  rewrite Forall_forall in Hlen.
  rewrite (Hlen axis (proj2 (list_elem_of_In _ _) Hin)). by apply Htop.
Qed.

Lemma points_of_select (first : list nat) (rest : list (list nat)) (top : list nat) :
  points_of (map (fun axis => map (fun j => nth j axis 0) top) (first :: rest)) =
    Ok (map (peak_point (first :: rest)) top).
Proof.
  simpl map at 1. rewrite points_of_ok.
  - rewrite length_map. f_equal.
    rewrite <- (map_nth_seq 0 (peak_point (first :: rest)) top).
    apply map_ext_in. intros i Hi%in_seq.
    by rewrite <- peak_point_select by lia.
  - rewrite Forall_forall. intros axis' Hin.
    change (axis' ∈ map (fun axis => map (fun j => nth j axis 0) top) (first :: rest)) in Hin.
    apply list_elem_of_fmap in Hin as (axis & -> & _). by rewrite !length_map.
Qed.

(** *** Offsets *)

Lemma coord_in_bounds_cons d shp c coord :
  coord_in_bounds (d :: shp) (c :: coord) = (c <? d) && coord_in_bounds shp coord.
Proof.
  unfold coord_in_bounds. simpl.
  destruct (length coord =? length shp), (c <? d); simpl; done.
Qed.

Lemma ravel_offset_bound shp coord acc :
  coord_in_bounds shp coord = true ->
  ravel_offset shp coord acc < (acc + 1) * shape_size shp.
Proof.
  revert coord acc. induction shp as [|d shp IH]; intros coord acc Hb.
  - destruct coord; simpl; lia.
  - destruct coord as [|c coord]; [done|].
    rewrite coord_in_bounds_cons in Hb. apply andb_true_iff in Hb as [Hc Hb].
    apply Nat.ltb_lt in Hc. simpl.
    specialize (IH coord (acc * d + c) Hb).
    change (fold_right Nat.mul 1 shp) with (shape_size shp).
    nia.
Qed.

Lemma ravel_offset_lt shp coord :
  coord_in_bounds shp coord = true -> ravel_offset shp coord 0 < shape_size shp.
Proof. intros Hb. pose proof (ravel_offset_bound shp coord 0 Hb). lia. Qed.

Lemma getitem_tuple_ok (x : ndarray) (first : list nat) (rest : list (list nat)) vals :
  getitem_tuple x (first :: rest) = Ok vals ->
  Forall (fun axis => length axis = length first) (first :: rest) /\
  length vals = length first /\
  forall j, j < length first ->
    coord_in_bounds (nd_shape x) (peak_point (first :: rest) j) = true /\
    peak_offset (nd_shape x) (first :: rest) j < length (nd_data x).
Proof.
  unfold getitem_tuple. intros Hvals.
  destruct (points_of (first :: rest)) as [pts|] eqn:Hpts; simpl in Hvals; [|done].
  pose proof (points_of_same_length _ _ _ Hpts) as Hlen.
  rewrite points_of_ok in Hpts by done. injection Hpts as <-.
  split; [done|]. split.
  { apply omap_length in Hvals. by rewrite length_map, length_seq in Hvals. }
  intros j Hj. apply omap_ok_inv in Hvals.
  destruct (Forall2_lookup_l _ _ _ j (peak_point (first :: rest) j) Hvals)
    as (v & _ & Hv).
  { rewrite list_lookup_fmap, lookup_seq_lt by done. done. }
  cbv beta in Hv.
  destruct (coord_in_bounds (nd_shape x) (peak_point (first :: rest) j)); [|done].
  split; [done|]. unfold peak_offset.
  destruct (nd_data x !! _) eqn:Hd; [|done]. by eapply lookup_lt_Some.
Qed.

(** *** Sorting *)

Lemma np_argsort_perm (v : list Z) : Permutation (np_argsort v) (seq 0 (length v)).
Proof. apply merge_sort_Permutation. Qed.

Lemma np_argsort_sorted (v : list Z) : StronglySorted (sample_le v) (np_argsort v).
Proof. apply StronglySorted_merge_sort; apply _. Qed.

Lemma np_argsort_length (v : list Z) : length (np_argsort v) = length v.
Proof. by rewrite (Permutation_length (np_argsort_perm v)), length_seq. Qed.

Lemma np_sort_perm (l : list nat) : Permutation (np_sort l) l.
Proof. apply merge_sort_Permutation. Qed.

Lemma np_sort_sorted (l : list nat) : Sorted le (np_sort l).
Proof. apply Sorted_merge_sort. intros i j. lia. Qed.


(** *** The positions kept by the slice *)

Lemma top_positions_length (vals : list Z) (k : Z) :
  length (top_positions vals k) = length vals - slice_index (length vals) (- k).
Proof.
  unfold top_positions. by rewrite slice_from_length, np_argsort_length.
Qed.

Lemma top_positions_length_pos (vals : list Z) (k : Z) :
  (1 <= k <= Z.of_nat (length vals))%Z ->
  length (top_positions vals k) = Z.to_nat k.
Proof.
  intros Hk. rewrite top_positions_length, slice_index_neg by lia. lia.
Qed.

Lemma top_positions_zero (vals : list Z) : top_positions vals 0 = np_argsort vals.
Proof.
  unfold top_positions, slice_from. simpl. by rewrite slice_index_zero.
Qed.

Lemma top_positions_NoDup (vals : list Z) (k : Z) : NoDup (top_positions vals k).
Proof.
  unfold top_positions, slice_from.
  assert (Hnd : NoDup (np_argsort vals)).
  { rewrite (np_argsort_perm vals). apply NoDup_seq. }
  rewrite <- (take_drop (slice_index (length (np_argsort vals)) (- k)) (np_argsort vals)) in Hnd.
  by apply NoDup_app in Hnd as (_ & _ & ?).
Qed.

Lemma top_positions_bound (vals : list Z) (k : Z) j :
  In j (top_positions vals k) -> j < length vals.
Proof.
  unfold top_positions, slice_from. intros Hj.
  assert (Hin : In j (np_argsort vals)).
  { rewrite <- (take_drop (slice_index (length (np_argsort vals)) (- k)) (np_argsort vals)).
    apply in_or_app. by right. }
  apply (Permutation_in _ (np_argsort_perm vals)) in Hin.
  apply in_seq in Hin. lia.
Qed.

(** Every kept position carries a sample at least as large as that of
    every position left out. *)
Lemma top_positions_dominate (vals : list Z) (k : Z) j j' :
  In j (top_positions vals k) ->
  j' < length vals -> ~ In j' (top_positions vals k) ->
  (nth j' vals 0 <= nth j vals 0)%Z.
Proof.
  unfold top_positions, slice_from. intros Hj Hj' Hout.
  set (s := slice_index (length (np_argsort vals)) (- k)) in *.
  pose proof (np_argsort_sorted vals) as Hsorted.
  rewrite <- (take_drop s (np_argsort vals)) in Hsorted.
  apply (StronglySorted_app_1_elem_of _ _ _ j' j Hsorted).
  - assert (Hin : In j' (np_argsort vals)).
    { apply (Permutation_in _ (Permutation_sym (np_argsort_perm vals))).
      apply in_seq. lia. }
    rewrite <- (take_drop s (np_argsort vals)) in Hin.
    apply in_app_or in Hin as [Hin|Hin]; [by apply list_elem_of_In|done].
  - by apply list_elem_of_In.
Qed.

Lemma getitem_array_total {A} (a : list A) (idx : list nat) :
  (forall j, In j idx -> j < length a) ->
  exists bs, getitem_array a idx = Ok bs /\
    length bs = length idx /\
    forall i j, idx !! i = Some j -> bs !! i = a !! j.
Proof.
  unfold getitem_array. induction idx as [|j idx IH]; intros Hidx; simpl.
  - exists []. split_and!; [done|done|]. intros i j Hi. by rewrite lookup_nil in Hi.
  - destruct IH as (bs & -> & Hlen & Hbs); [intros; apply Hidx; by right|].
    destruct (lookup_lt_is_Some_2 a j) as [x Hx]; [apply Hidx; by left|].
    rewrite Hx. simpl. exists (x :: bs). split_and!; [done|simpl; lia|].
    intros [|i] j' Hi; simpl in *; [by simplify_eq|by apply Hbs].
Qed.

Lemma np_unravel_index_ok (idx shp : list nat) :
  (forall p, In p idx -> p < shape_size shp) ->
  np_unravel_index idx shp = Ok (axes_of (length shp) (map (unravel_offset shp) idx)).
Proof.
  intros Hidx. unfold np_unravel_index.
  rewrite (omap_ok_map _ (unravel_offset shp)); [done|].
  intros p Hp. unfold unravel_point.
  destruct (Nat.ltb_spec p (shape_size shp)); [done|]. specialize (Hidx p Hp). lia.
Qed.

Lemma ravel_selected (x : ndarray) (first : list nat) (rest : list (list nat))
    (vals : list Z) (top : list nat) :
  getitem_tuple x (first :: rest) = Ok vals ->
  (forall j, In j top -> j < length first) ->
  np_ravel_multi_index
    (map (fun axis => map (fun j => nth j axis 0) top) (first :: rest)) (nd_shape x) =
  Ok (map (peak_offset (nd_shape x) (first :: rest)) top).
Proof.
  intros Hvals Htop. unfold np_ravel_multi_index.
  rewrite points_of_select.
  destruct (getitem_tuple_ok _ _ _ _ Hvals) as (_ & _ & Hb).
  rewrite (omap_ok_map _ (fun pt => ravel_offset (nd_shape x) pt 0)).
  - by rewrite map_map.
  - intros pt (j & <- & Hj)%in_map_iff. unfold ravel_point.
    by destruct (Hb j (Htop j Hj)) as [-> _].
Qed.

Lemma selected_offsets_bound (x : ndarray) (first : list nat) (rest : list (list nat))
    (vals : list Z) (k : Z) p :
  getitem_tuple x (first :: rest) = Ok vals ->
  In p (selected_offsets (nd_shape x) (first :: rest) vals k) ->
  p < shape_size (nd_shape x).
Proof.
  intros Hvals Hp. unfold selected_offsets in Hp.
  apply (Permutation_in _ (np_sort_perm _)) in Hp.
  apply in_map_iff in Hp as (j & <- & Hj).
  destruct (getitem_tuple_ok _ _ _ _ Hvals) as (_ & Hlen & Hb).
  apply top_positions_bound in Hj. rewrite Hlen in Hj.
  destruct (Hb j Hj) as [Hin _]. by apply ravel_offset_lt.
Qed.

Lemma np_reshape_ok flat shp sp :
  np_reshape flat shp = Ok sp -> nd_shape sp = shp /\ nd_data sp = flat.
Proof.
  unfold np_reshape. destruct (length flat =? shape_size shp); [|done].
  by intros [= <-].
Qed.

(** ** The monad *)

Section PipelineFacts.
Context {D W G Loc Mat : Type}.
Context `{ArrayDesign D Loc W Mat} `{SearchGrid G Loc}.
Implicit Types (self : @SpectrumBasedEstimatorBase D W G).
Implicit Types (w : @world W G Loc Mat) (f_sp : Mat -> outcome (list Z)).
Implicit Types (rs re : bool) (k d it density n_iters : Z).

Lemma add_events_nil w : add_events w [] = mk_world (_A w) (heap w) (trace w).
Proof. unfold add_events. by rewrite app_nil_r. Qed.

Lemma world_eta w : mk_world (_A w) (heap w) (trace w) = w.
Proof. by destruct w. Qed.

Lemma add_events_add_events w evs1 evs2 :
  add_events (add_events w evs1) evs2 = add_events w (evs1 ++ evs2).
Proof. unfold add_events. simpl. by rewrite app_assoc. Qed.

Lemma run_bind_ok {A B} (m : M A) (f : A -> M B) w a w' :
  m w = (Ok a, w') -> bind m f w = f a w'.
Proof. intros Hm. unfold bind. by rewrite Hm. Qed.

Lemma run_bind_raise {A B} (m : M A) (f : A -> M B) w e w' :
  m w = (Raise e, w') -> bind m f w = (Raise e, w').
Proof. intros Hm. unfold bind. by rewrite Hm. Qed.

Lemma run_lift {A} (o : outcome A) w : lift o w = (o, w).
Proof. done. Qed.

Lemma run_log ev w : log ev w = (Ok tt, add_events w [ev]).
Proof. done. Qed.

Lemma run_call_steering_matrix self p wl pert w :
  call_steering_matrix self p wl pert w =
    (Ok (steering_matrix (_design self) p wl pert),
     add_events w [Call_steering_matrix p wl pert]).
Proof. done. Qed.

Lemma run_call_f_sp f_sp A w :
  call_f_sp f_sp A w = (f_sp A, add_events w [Call_f_sp A]).
Proof. done. Qed.

Lemma run_call_peak_finder self sp w :
  call_peak_finder self sp w = (_peak_finder self sp, add_events w [Call_peak_finder sp]).
Proof. done. Qed.

Lemma run_call_argsort v w :
  call_argsort v w = (Ok (np_argsort v), add_events w [Call_argsort v]).
Proof. done. Qed.

Lemma run_call_sort idx w :
  call_sort idx w = (Ok (np_sort idx), add_events w [Call_sort idx]).
Proof. done. Qed.

Lemma run_call_placement_getitem p idx locs w :
  getitem_array p idx = Ok locs ->
  call_placement_getitem p idx w =
    (Ok (length (heap w)),
     mk_world (_A w) (heap w ++ [locs]) (trace w ++ [Call_placement_getitem idx])).
Proof.
  intros Hlocs. unfold call_placement_getitem, bind, log, lift, alloc.
  by rewrite Hlocs.
Qed.

Lemma run_call_create_refined_grids_at g coords density w :
  call_create_refined_grids_at g coords density w =
    (Ok (create_refined_grids_at g coords density),
     add_events w [Call_create_refined_grids_at coords density]).
Proof. done. Qed.

Lemma run_call_create_refined_grid_at g coord density w :
  call_create_refined_grid_at g coord density w =
    (Ok (create_refined_grid_at g coord density),
     add_events w [Call_create_refined_grid_at g coord density]).
Proof. done. Qed.

(** *** _get_steering_matrix *)

Lemma get_steering_matrix_hit self w A :
  _A w = Some A -> _get_steering_matrix self w = (Ok A, w).
Proof.
  intros HA. unfold _get_steering_matrix, bind, get_A. by rewrite HA.
Qed.

Lemma get_steering_matrix_miss self w :
  _A w = None ->
  _get_steering_matrix self w =
    (Ok (grid_steering_matrix self),
     mk_world (if _enable_caching self then Some (grid_steering_matrix self) else None)
       (heap w) (trace w ++ [grid_steering_call self])).
Proof.
  intros HA.
  unfold _get_steering_matrix, bind, get_A, call_steering_matrix, log, ret, set_A.
  rewrite HA. simpl. destruct (_enable_caching self); simpl; [done|].
  by rewrite HA.
Qed.

(** The getter never raises; it leaves the heap alone and logs at most
    the one computation of the grid's steering matrix. *)
Lemma get_steering_matrix_total self w :
  exists A w1, _get_steering_matrix self w = (Ok A, w1) /\
    heap w1 = heap w /\
    (trace w1 = trace w \/ trace w1 = trace w ++ [grid_steering_call self]).
Proof.
  destruct (_A w) as [A|] eqn:HA.
  - exists A, w. rewrite (get_steering_matrix_hit _ _ _ HA). auto.
  - eexists _, _. rewrite (get_steering_matrix_miss _ _ HA). simpl. auto.
Qed.

Lemma get_steering_matrix_times_cached self n w A :
  _A w = Some A ->
  get_steering_matrix_times self n w = (Ok (repeat A n), w).
Proof.
  intros HA. induction n as [|n IH]; simpl; [done|].
  unfold bind. rewrite (get_steering_matrix_hit _ _ _ HA), IH. done.
Qed.

Lemma get_steering_matrix_times_uncached self n w :
  _A w = None -> _enable_caching self = false ->
  get_steering_matrix_times self n w =
    (Ok (repeat (grid_steering_matrix self) n),
     add_events w (repeat (grid_steering_call self) n)).
Proof.
  intros HA Hoff. revert w HA. induction n as [|n IH]; intros w HA; simpl.
  - unfold ret. by rewrite add_events_nil, world_eta.
  - unfold bind. rewrite (get_steering_matrix_miss _ _ HA), Hoff.
    rewrite IH by done. unfold ret, add_events. simpl.
    rewrite HA. by rewrite <- app_assoc.
Qed.

(** C6.  From a state with an empty cache slot (as [__init__] leaves
    it), [n] calls of the getter all return the grid's steering matrix.
    With caching enabled the array design is asked for it once (for
    [n >= 1]) and the matrix stays in the slot; with caching disabled it
    is asked [n] times and the slot stays empty.  A filled slot is
    returned as it is, with no call and no change of state. *)
Theorem steering_matrix_computed_once self n w :
  _A w = None ->
  (forall A w0, _A w0 = Some A -> _get_steering_matrix self w0 = (Ok A, w0)) /\
  exists w',
    get_steering_matrix_times self n w = (Ok (repeat (grid_steering_matrix self) n), w') /\
    heap w' = heap w /\
    if _enable_caching self then
      trace w' = trace w ++ repeat (grid_steering_call self) (Nat.min 1 n) /\
      _A w' = (if n is O then None else Some (grid_steering_matrix self))
    else
      trace w' = trace w ++ repeat (grid_steering_call self) n /\
      _A w' = None.
Proof.
  intros HA. split; [intros A w0; apply get_steering_matrix_hit|].
  destruct (_enable_caching self) eqn:Hcache.
  - destruct n as [|n].
    + exists w. simpl. unfold ret. by rewrite app_nil_r.
    + eexists. simpl. unfold bind at 1.
      rewrite (get_steering_matrix_miss _ _ HA), Hcache.
      unfold bind. rewrite (get_steering_matrix_times_cached _ n _ (grid_steering_matrix self)) by done.
      unfold ret. simpl. done.
  - eexists. rewrite get_steering_matrix_times_uncached by done.
    unfold add_events. simpl. done.
Qed.

(** *** _estimate *)

Lemma estimate_unresolved self f_sp k rs re d it w A w1 flat sp peaks first :
  _get_steering_matrix self w = (Ok A, w1) ->
  f_sp A = Ok flat ->
  np_reshape flat (shape (_search_grid self)) = Ok sp ->
  _peak_finder self sp = Ok peaks ->
  tuple_first peaks = Ok first ->
  (Z.of_nat (length first) < k)%Z ->
  _estimate self f_sp k rs re d it w =
    (Ok (unresolved_result rs), add_events w1 [Call_f_sp A; Call_peak_finder sp]).
Proof.
  intros Hget Hf Hsp Hpk Hfirst Hlt. unfold _estimate.
  rewrite (run_bind_ok _ _ _ _ _ Hget).
  erewrite run_bind_ok by (rewrite run_call_f_sp, Hf; reflexivity).
  erewrite run_bind_ok by (rewrite run_lift, Hsp; reflexivity).
  erewrite run_bind_ok by (rewrite run_call_peak_finder, Hpk; reflexivity).
  erewrite run_bind_ok by (rewrite run_lift, Hfirst; reflexivity).
  destruct (Z.ltb_spec (Z.of_nat (length first)) k); [|lia].
  rewrite add_events_add_events. unfold unresolved_result. by destruct rs.
Qed.

(** The resolving path: the call selects, sorts and indexes the grid's
    placement, and hands the new placement object to the refinement
    when asked to. *)
Lemma estimate_resolved self f_sp k rs re d it w A w1 flat sp peaks first vals :
  _get_steering_matrix self w = (Ok A, w1) ->
  f_sp A = Ok flat ->
  np_reshape flat (shape (_search_grid self)) = Ok sp ->
  _peak_finder self sp = Ok peaks ->
  tuple_first peaks = Ok first ->
  (k <= Z.of_nat (length first))%Z ->
  getitem_tuple sp peaks = Ok vals ->
  shape_size (shape (_search_grid self)) <= length (source_placement (_search_grid self)) ->
  let shp := shape (_search_grid self) in
  let offsets := selected_offsets shp peaks vals k in
  exists locs,
    getitem_array (source_placement (_search_grid self)) offsets = Ok locs /\
    let est := length (heap w1) in
    let w2 := mk_world (_A w1) (heap w1 ++ [locs])
                (trace w1 ++ [Call_f_sp A; Call_peak_finder sp; Call_argsort vals;
                              Call_sort (map (peak_offset shp peaks) (top_positions vals k));
                              Call_placement_getitem offsets]) in
    _estimate self f_sp k rs re d it w =
      if re then
        match _refine_estimates self f_sp est
                (axes_of (length shp) (map (unravel_offset shp) offsets))
                default_density default_n_iters w2 with
        | (Ok _, w3) => (Ok (resolved_result rs est sp), w3)
        | (Raise e, w3) => (Raise e, w3)
        end
      else (Ok (resolved_result rs est sp), w2).
Proof.
  intros Hget Hf Hsp Hpk Hfirst Hge Hvals Hsize shp offsets.
  destruct (np_reshape_ok _ _ _ Hsp) as [Hshape _].
  destruct peaks as [|first' rest]; [done|]. injection Hfirst as ->.
  destruct (getitem_tuple_ok _ _ _ _ Hvals) as (Hlen & Hn & Hb).
  assert (Htop : forall j, In j (top_positions vals k) -> j < length first).
  { intros j Hj%top_positions_bound. lia. }
  destruct (getitem_array_total (source_placement (_search_grid self)) offsets)
    as (locs & Hlocs & _).
  { intros p Hp. unfold offsets, shp in Hp. rewrite <- Hshape in Hp.
    apply (selected_offsets_bound _ _ _ _ _ _ Hvals) in Hp. rewrite Hshape in Hp. lia. }
  exists locs. split; [done|]. intros est w2. unfold _estimate.
  rewrite (run_bind_ok _ _ _ _ _ Hget).
  erewrite run_bind_ok by (rewrite run_call_f_sp, Hf; reflexivity).
  erewrite run_bind_ok by (rewrite run_lift, Hsp; reflexivity).
  erewrite run_bind_ok by (rewrite run_call_peak_finder, Hpk; reflexivity).
  erewrite run_bind_ok by (rewrite run_lift; reflexivity).
  destruct (Z.ltb_spec (Z.of_nat (length first)) k); [lia|].
  erewrite run_bind_ok by (rewrite run_lift, Hvals; reflexivity).
  erewrite run_bind_ok by (rewrite run_call_argsort; reflexivity).
  change (slice_from (np_argsort vals) (- k)) with (top_positions vals k).
  erewrite run_bind_ok
    by (rewrite run_lift, (select_axes_ok first rest _ Hlen Htop); reflexivity).
  erewrite run_bind_ok; cycle 1.
  { rewrite run_lift, <- Hshape.
    rewrite (ravel_selected sp first rest vals _ Hvals Htop). reflexivity. }
  rewrite Hshape.
  erewrite run_bind_ok by (rewrite run_call_sort; reflexivity).
  change (np_sort (map (peak_offset (shape (_search_grid self)) (first :: rest))
                     (top_positions vals k))) with offsets.
  erewrite run_bind_ok by (apply run_call_placement_getitem, Hlocs).
  rewrite !add_events_add_events. simpl. rewrite <- app_assoc. simpl.
  change (length (heap w1)) with est.
  change (mk_world (_A w1) (heap w1 ++ [locs]) _) with w2.
  destruct re.
  - rewrite np_unravel_index_ok; cycle 1.
    { intros p Hp. unfold offsets, shp in Hp. rewrite <- Hshape in Hp.
      apply (selected_offsets_bound _ _ _ _ _ _ Hvals) in Hp. by rewrite Hshape in Hp. }
    unfold bind at 1.
    rewrite (run_bind_ok _ _ w2 _ w2 (run_lift _ _)). fold shp.
    destruct (_refine_estimates _ _ _ _ _ _ _) as [[[]|e] w3];
      unfold resolved_result, ret; destruct rs; done.
  - unfold bind, ret, resolved_result. by destruct rs.
Qed.

(** *** _refine_estimates *)

Lemma bind_ok_inv {A B} (m : M A) (f : A -> M B) w b w' :
  bind m f w = (Ok b, w') ->
  exists a w1, m w = (Ok a, w1) /\ f a w1 = (Ok b, w').
Proof.
  unfold bind. destruct (m w) as [[a|e] w1]; [|done]. intros Hf. by exists a, w1.
Qed.

Lemma lift_ok_inv {A} (o : outcome A) w a w' :
  lift o w = (Ok a, w') -> o = Ok a /\ w' = w.
Proof. unfold lift. by intros [= -> ->]. Qed.

Lemma ret_ok_inv {A} (a : A) w b w' :
  ret a w = (Ok b, w') -> b = a /\ w' = w.
Proof. unfold ret. by intros [= -> ->]. Qed.

Lemma set_location_ok_inv est i v w u w' :
  set_location est i v w = (Ok u, w') ->
  exists locs, heap w !! est = Some locs /\ i < length locs /\
    w' = mk_world (_A w) (<[est := <[i := v]> locs]> (heap w))
           (trace w ++ [Set_location est i v]).
Proof.
  unfold set_location. destruct (heap w !! est) as [locs|]; [|done].
  destruct (Nat.ltb_spec i (length locs)); [|done].
  intros [= _ <-]. by exists locs.
Qed.

Lemma zoom_or_ok self f_sp density g i_max v :
  locate self f_sp g = Ok (i_max, v) ->
  i_max < shape_size (shape g) ->
  zoom self f_sp density g =
    Ok (create_refined_grid_at g (unravel_offset (shape g) i_max) density) /\
  zoom_or self f_sp density g =
    create_refined_grid_at g (unravel_offset (shape g) i_max) density.
Proof.
  intros Hloc Hlt. unfold zoom_or, zoom, unravel_point. rewrite Hloc. simpl.
  by destruct (Nat.ltb_spec i_max (shape_size (shape g))); [|lia].
Qed.

(** One pass of the loop body that runs to its end. *)
Lemma refine_body_ok self f_sp est0 density n_iters r i sg w sg' w' :
  refine_body self f_sp est0 density n_iters r i sg w = (Ok sg', w') ->
  let final := (r =? n_iters - 1)%Z in
  exists g i_max v locs,
    sg !! i = Some g /\
    locate self f_sp g = Ok (i_max, v) /\
    heap w !! est0 = Some locs /\ i < length locs /\
    w' = mk_world (_A w) (<[est0 := <[i := v]> locs]> (heap w))
           (trace w ++ body_events self f_sp est0 density final i g) /\
    sg' = (if final then sg else <[i := zoom_or self f_sp density g]> sg) /\
    (final = false -> zoom self f_sp density g = Ok (zoom_or self f_sp density g)).
Proof.
  intros Hrun final. unfold refine_body in Hrun.
  apply bind_ok_inv in Hrun as (g & w1 & [Hg ->]%lift_ok_inv & Hrun).
  apply bind_ok_inv in Hrun as (A & w1 & HA & Hrun).
  rewrite run_call_steering_matrix in HA. injection HA as <- <-.
  apply bind_ok_inv in Hrun as (sp & w1 & Hsp & Hrun).
  rewrite run_call_f_sp in Hsp. injection Hsp as Hsp <-.
  apply bind_ok_inv in Hrun as (i_max & w1 & [Himax ->]%lift_ok_inv & Hrun).
  apply bind_ok_inv in Hrun as (v & w1 & [Hv ->]%lift_ok_inv & Hrun).
  apply bind_ok_inv in Hrun as (u & w1 & Hset & Hrun).
  apply set_location_ok_inv in Hset as (locs & Hlocs & Hi & ->).
  unfold getitem in Hg. destruct (sg !! i) as [g'|] eqn:Hsg; [|done].
  injection Hg as ->.
  assert (Hloc : locate self f_sp g = Ok (i_max, v)).
  { unfold locate. rewrite Hsp. simpl. rewrite Himax. simpl. by rewrite Hv. }
  exists g, i_max, v, locs. split; [done|]. split; [done|].
  split; [done|]. split; [done|].
  unfold body_events. rewrite Hloc. fold final in Hrun.
  destruct final.
  - apply ret_ok_inv in Hrun as [-> ->]. simpl.
    rewrite <- !app_assoc. simpl. done.
  - apply bind_ok_inv in Hrun as (coord & w1 & [Hcoord ->]%lift_ok_inv & Hrun).
    apply bind_ok_inv in Hrun as (g' & w1 & Hg' & Hrun).
    rewrite run_call_create_refined_grid_at in Hg'. injection Hg' as <- <-.
    apply ret_ok_inv in Hrun as [-> ->].
    unfold unravel_point in Hcoord.
    destruct (Nat.ltb_spec i_max (shape_size (shape g))) as [Hlt|]; [|done].
    injection Hcoord as <-.
    destruct (zoom_or_ok self f_sp density g i_max v Hloc Hlt) as [Hz Hzo].
    rewrite Hzo. unfold add_events. simpl. rewrite <- !app_assoc. simpl.
    split_and!; [done|done|]. intros _. by rewrite Hz.
Qed.

(** One round (the inner loop) that runs to its end, from estimate
    [i0] on. *)
Lemma refine_round_ok self f_sp est0 density n_iters r len :
  forall i0 sg w locs sg' w',
  for_each (seq i0 len) (refine_body self f_sp est0 density n_iters r) sg w
    = (Ok sg', w') ->
  i0 + len = length sg ->
  heap w !! est0 = Some locs ->
  let final := (r =? n_iters - 1)%Z in
  exists locs',
    w' = mk_world (_A w) (<[est0 := locs']> (heap w))
           (trace w ++
            concat (imap (fun j => body_events self f_sp est0 density final (i0 + j))
                      (drop i0 sg))) /\
    length locs' = length locs /\
    (forall i, i < i0 \/ length sg <= i -> locs' !! i = locs !! i) /\
    (forall i g, i0 <= i -> sg !! i = Some g ->
       exists i_max v, locate self f_sp g = Ok (i_max, v) /\
         locs' !! i = Some v /\
         (final = false -> zoom self f_sp density g = Ok (zoom_or self f_sp density g))) /\
    sg' = (if final then sg
           else take i0 sg ++ map (zoom_or self f_sp density) (drop i0 sg)).
Proof.
  induction len as [|len IH]; intros i0 sg w locs sg' w' Hrun Hlen Hlocs final.
  - simpl in Hrun. apply ret_ok_inv in Hrun as [-> ->].
    exists locs. rewrite drop_ge by lia. simpl.
    rewrite app_nil_r, list_insert_id, world_eta by done.
    split_and!; try done.
    + intros i g Hi Hg. apply lookup_lt_Some in Hg. lia.
    + rewrite take_ge by lia. rewrite app_nil_r. by destruct final.
  - simpl in Hrun.
    apply bind_ok_inv in Hrun as (sg1 & w1 & Hbody & Hrun).
    apply refine_body_ok in Hbody
      as (g & i_max & v & locs0 & Hg & Hloc & Hlocs0 & Hi0 & -> & -> & Hzoom).
    fold final in Hzoom. fold final in Hrun. fold final.
    rewrite Hlocs in Hlocs0. injection Hlocs0 as <-.
    pose proof (lookup_lt_Some _ _ _ Hlocs) as Hest.
    set (sg1 := if final then sg else <[i0 := zoom_or self f_sp density g]> sg) in *.
    assert (Hlen1 : length sg1 = length sg).
    { unfold sg1. destruct final; [done|]. by rewrite length_insert. }
    assert (Hdrop1 : drop (S i0) sg1 = drop (S i0) sg).
    { unfold sg1. destruct final; [done|]. by rewrite drop_insert_lt by lia. }
    assert (Hsg1 : forall i, i <> i0 -> sg1 !! i = sg !! i).
    { intros i Hne. unfold sg1. destruct final; [done|].
      by rewrite list_lookup_insert_ne by done. }
    edestruct (IH (S i0) sg1 _ (<[i0 := v]> locs) sg' w' Hrun)
      as (locs' & -> & Hlen' & Hsame & Hnew & Hsg'); [lia| |].
    { simpl. by rewrite list_lookup_insert_eq. }
    exists locs'. simpl. rewrite list_insert_insert_eq.
    rewrite (drop_S sg g i0 Hg), imap_cons, Hdrop1. simpl.
    rewrite Nat.add_0_r, <- app_assoc.
    split_and!.
    + do 4 f_equal. apply imap_ext. intros j x _. simpl. f_equal. lia.
    + by rewrite Hlen', length_insert.
    + intros i Hi. rewrite Hsame by lia. apply list_lookup_insert_ne. lia.
    + intros i g' Hi Hg'. destruct (decide (i = i0)) as [->|Hne].
      * rewrite Hg in Hg'. injection Hg' as <-. exists i_max, v.
        split; [done|]. split; [|done].
        rewrite Hsame by lia. by apply list_lookup_insert_eq.
      * apply Hnew; [lia|]. by rewrite Hsg1.
    + rewrite Hsg'. fold final. unfold sg1. destruct final; [done|].
      rewrite (take_S_r _ _ (zoom_or self f_sp density g)); cycle 1.
      { apply list_lookup_insert_eq. by eapply lookup_lt_Some. }
      rewrite take_insert_ge by lia. rewrite drop_insert_lt by lia.
      by rewrite <- app_assoc.
Qed.

Lemma subgrid_at_succ self f_sp density j g :
  subgrid_at self f_sp density (S j) g =
  subgrid_at self f_sp density j (zoom_or self f_sp density g).
Proof. unfold subgrid_at. apply Nat.iter_succ_r. Qed.

Lemma is_final_spec n_iters r0 len :
  r0 + S len = Z.to_nat n_iters ->
  is_final n_iters r0 = true <-> len = 0.
Proof. intros Hn. unfold is_final. rewrite Z.eqb_eq. lia. Qed.

(** The rounds (the outer loop) that run to their end, from round [r0]
    on. *)
Lemma refine_rounds_ok self f_sp est0 density n_iters len :
  forall r0 sg w locs sg' w',
  for_each (map Z.of_nat (seq r0 len))
    (fun r sg => for_each (seq 0 (length sg))
                   (refine_body self f_sp est0 density n_iters r) sg) sg w
    = (Ok sg', w') ->
  r0 + len = Z.to_nat n_iters ->
  heap w !! est0 = Some locs ->
  exists locs',
    w' = mk_world (_A w) (<[est0 := locs']> (heap w))
           (trace w ++
            concat (map (fun j =>
                           round_events self f_sp est0 density (is_final n_iters (r0 + j))
                             (map (subgrid_at self f_sp density j) sg))
                      (seq 0 len))) /\
    length locs' = length locs /\
    (forall i, length sg <= i -> locs' !! i = locs !! i) /\
    (len = 0 -> locs' = locs) /\
    (forall j i g, j < len -> sg !! i = Some g ->
       exists i_max v,
         locate self f_sp (subgrid_at self f_sp density j g) = Ok (i_max, v) /\
         (S j < len ->
            zoom self f_sp density (subgrid_at self f_sp density j g) =
              Ok (subgrid_at self f_sp density (S j) g)) /\
         (S j = len -> locs' !! i = Some v)).
Proof.
  induction len as [|len IH]; intros r0 sg w locs sg' w' Hrun Hn Hlocs.
  - simpl in Hrun. apply ret_ok_inv in Hrun as [-> ->].
    exists locs. simpl. rewrite app_nil_r, list_insert_id, world_eta by done.
    split_and!; try done. intros j i g Hj. lia.
  - simpl in Hrun.
    apply bind_ok_inv in Hrun as (sg1 & w1 & Hround & Hrun).
    destruct (refine_round_ok _ _ _ _ _ _ _ 0 sg w locs sg1 w1 Hround)
      as (locs1 & -> & Hlen1 & Hsame1 & Hnew1 & Hsg1); [done|done|].
    change (Z.of_nat r0 =? n_iters - 1)%Z with (is_final n_iters r0) in *.
    rewrite drop_0 in *. simpl take in Hsg1. simpl app in Hsg1.
    pose proof (lookup_lt_Some _ _ _ Hlocs) as Hest.
    assert (Hlensg : length sg1 = length sg).
    { rewrite Hsg1. destruct (is_final n_iters r0); [done|]. by rewrite length_map. }
    edestruct (IH (S r0) sg1 _ locs1 sg' w' Hrun)
      as (locs' & -> & Hlen' & Hsame & Hzero & Hnew); [lia| |].
    { simpl. by rewrite list_lookup_insert_eq. }
    exists locs'. simpl. rewrite list_insert_insert_eq.
    assert (Hfinal : len <> 0 -> is_final n_iters r0 = false).
    { intros Hne. destruct (is_final n_iters r0) eqn:Hf; [|done].
      apply (is_final_spec n_iters r0 len Hn) in Hf. lia. }
    split_and!.
    + f_equal. rewrite <- app_assoc. f_equal. rewrite Nat.add_0_r. f_equal.
      * unfold round_events. f_equal. f_equal.
        rewrite <- (map_id sg) at 1. by apply map_ext.
      * destruct len as [|len]; [done|].
        rewrite Hsg1, (Hfinal ltac:(lia)).
        rewrite <- seq_shift, map_map. f_equal. apply map_ext. intros j.
        f_equal; [f_equal; lia|].
        rewrite map_map. apply map_ext. intros g. by rewrite subgrid_at_succ.
    + lia.
    + intros i Hi. rewrite Hsame by lia. apply Hsame1. lia.
    + done.
    + intros j i g Hj Hg. destruct j as [|j].
      * destruct (Hnew1 i g) as (i_max & v & Hloc & Hv & Hzoom); [lia|done|].
        exists i_max, v. split; [done|]. split.
        -- intros Hlt. unfold subgrid_at at 2. simpl. apply Hzoom, Hfinal. lia.
        -- intros Hone. rewrite Hzero by lia. done.
      * assert (Hg1 : sg1 !! i = Some (zoom_or self f_sp density g)).
        { rewrite Hsg1, (Hfinal ltac:(lia)), list_lookup_fmap, Hg. done. }
        destruct (Hnew j i _ ltac:(lia) Hg1) as (i_max & v & Hloc & Hzoom & Hv).
        exists i_max, v. rewrite !subgrid_at_succ.
        split; [done|]. split; [intros; apply Hzoom; lia|intros; apply Hv; lia].
Qed.

(** A refinement that runs to its end: its events, and what it leaves
    in the placement object. *)
Lemma refine_estimates_ok self f_sp est0 peaks density n_iters w u w' locs :
  _refine_estimates self f_sp est0 peaks density n_iters w = (Ok u, w') ->
  heap w !! est0 = Some locs ->
  let sg0 := create_refined_grids_at (_search_grid self) peaks density in
  exists locs',
    w' = mk_world (_A w) (<[est0 := locs']> (heap w))
           (trace w ++ refinement_events self f_sp est0 peaks density n_iters) /\
    length locs' = length locs /\
    (forall i, length sg0 <= i -> locs' !! i = locs !! i) /\
    (Z.to_nat n_iters = 0 -> locs' = locs) /\
    (forall j i g, j < Z.to_nat n_iters -> sg0 !! i = Some g ->
       exists i_max v,
         locate self f_sp (subgrid_at self f_sp density j g) = Ok (i_max, v) /\
         (S j < Z.to_nat n_iters ->
            zoom self f_sp density (subgrid_at self f_sp density j g) =
              Ok (subgrid_at self f_sp density (S j) g)) /\
         (S j = Z.to_nat n_iters -> locs' !! i = Some v)).
Proof.
  intros Hrun Hlocs sg0. unfold _refine_estimates in Hrun.
  apply bind_ok_inv in Hrun as (u1 & w1 & Hlog & Hrun).
  rewrite run_log in Hlog. injection Hlog as _ <-.
  apply bind_ok_inv in Hrun as (sg & w1 & Hsg & Hrun).
  rewrite run_call_create_refined_grids_at in Hsg. injection Hsg as <- <-.
  apply bind_ok_inv in Hrun as (sg' & w1 & Hloop & Hrun).
  apply ret_ok_inv in Hrun as [_ ->].
  destruct (refine_rounds_ok _ _ _ _ _ _ 0 _ _ locs _ _ Hloop)
    as (locs' & -> & Hlen & Hsame & Hzero & Hnew); [done|done|].
  exists locs'. split_and!; try done.
  unfold refinement_events. simpl. rewrite <- !app_assoc. done.
Qed.

(** *** Reading the trace of a refinement *)

Lemma writes_to_app est i (t1 t2 : list (@event W G Loc Mat)) :
  writes_to est i (t1 ++ t2) = writes_to est i t1 ++ writes_to est i t2.
Proof. unfold writes_to. apply flat_map_app. Qed.

Lemma refined_from_app (t1 t2 : list (@event W G Loc Mat)) :
  refined_from (t1 ++ t2) = refined_from t1 ++ refined_from t2.
Proof. unfold refined_from. apply flat_map_app. Qed.

Lemma writes_to_body self f_sp est0 density final i i' g :
  writes_to est0 i (body_events self f_sp est0 density final i' g) =
  if i' =? i then
    match locate self f_sp g with
    | Ok (_, v) => [v]
    | Raise _ => []
    end
  else [].
Proof.
  unfold body_events.
  destruct (locate self f_sp g) as [[i_max v]|e]; simpl; [|by destruct (i' =? i)].
  rewrite Nat.eqb_refl. simpl.
  destruct (i' =? i); destruct final; simpl; done.
Qed.

Lemma writes_to_round_from self f_sp est0 density final i (sg : list G) :
  forall off,
  writes_to est0 i
    (concat (imap (fun j => body_events self f_sp est0 density final (off + j)) sg)) =
  match (if decide (off <= i) then sg !! (i - off) else None) with
  | Some g =>
      match locate self f_sp g with
      | Ok (_, v) => [v]
      | Raise _ => []
      end
  | None => []
  end.
Proof.
  induction sg as [|g sg IH]; intros off.
  - simpl. by destruct (decide (off <= i)).
  - rewrite imap_cons. simpl concat. rewrite writes_to_app, writes_to_body.
    rewrite (imap_ext _ (fun j => body_events self f_sp est0 density final (S off + j)));
      cycle 1.
    { intros j x _. simpl. f_equal. lia. }
    rewrite IH. rewrite Nat.add_0_r.
    destruct (Nat.eqb_spec off i) as [->|Hne]; repeat case_decide; try lia; simpl.
    + by rewrite Nat.sub_diag, app_nil_r.
    + replace (i - off) with (S (i - S off)) by lia. done.
    + done.
Qed.

Lemma writes_to_round self f_sp est0 density final i (sg : list G) g :
  sg !! i = Some g ->
  writes_to est0 i (round_events self f_sp est0 density final sg) =
  match locate self f_sp g with
  | Ok (_, v) => [v]
  | Raise _ => []
  end.
Proof.
  intros Hg. unfold round_events.
  etransitivity; [exact (writes_to_round_from self f_sp est0 density final i sg 0)|].
  by rewrite Nat.sub_0_r, Hg.
Qed.

Lemma refined_from_body self f_sp est0 density final i g i_max v :
  locate self f_sp g = Ok (i_max, v) ->
  refined_from (body_events self f_sp est0 density final i g) =
  if final then [] else [g].
Proof. intros Hloc. unfold body_events. rewrite Hloc. by destruct final. Qed.

Lemma refined_from_round_from self f_sp est0 density final (sg : list G) :
  (forall g, In g sg -> exists i_max v, locate self f_sp g = Ok (i_max, v)) ->
  forall off,
  refined_from
    (concat (imap (fun j => body_events self f_sp est0 density final (off + j)) sg)) =
  if final then [] else sg.
Proof.
  induction sg as [|g sg IH]; intros Hall off.
  - by destruct final.
  - rewrite imap_cons. simpl concat. rewrite refined_from_app.
    destruct (Hall g) as (i_max & v & Hloc); [by left|].
    rewrite (refined_from_body _ _ _ _ _ _ _ _ _ Hloc).
    rewrite (imap_ext _ (fun j => body_events self f_sp est0 density final (S off + j)));
      cycle 1.
    { intros j x _. simpl. f_equal. lia. }
    rewrite IH by (intros; apply Hall; by right). by destruct final.
Qed.

Lemma writes_located self f_sp (h : nat -> G) (l : list nat) :
  (forall r, In r l -> exists i_max v, locate self f_sp (h r) = Ok (i_max, v)) ->
  Forall2 (fun r v => exists i_max, locate self f_sp (h r) = Ok (i_max, v)) l
    (concat (map (fun r => match locate self f_sp (h r) with
                           | Ok (_, v) => [v]
                           | Raise _ => []
                           end) l)).
Proof.
  induction l as [|r l IH]; intros Hall; simpl; [constructor|].
  destruct (Hall r) as (i_max & v & Hloc); [by left|].
  rewrite Hloc. simpl. constructor; [by exists i_max|].
  apply IH. intros; apply Hall; by right.
Qed.

Lemma writes_to_concat est i (ts : list (list (@event W G Loc Mat))) :
  writes_to est i (concat ts) = concat (map (writes_to est i) ts).
Proof.
  induction ts as [|t ts IH]; simpl; [done|]. by rewrite writes_to_app, IH.
Qed.

Lemma refined_from_concat (ts : list (list (@event W G Loc Mat))) :
  refined_from (concat ts) = concat (map refined_from ts).
Proof.
  induction ts as [|t ts IH]; simpl; [done|]. by rewrite refined_from_app, IH.
Qed.

(** C5.  A refinement with parameters [n_iters] and [density] that runs
    to its end, on a placement object with one initial sub-grid per
    estimate:
    - the location of every estimate [i] is written once per round,
      [n_iters] times in all, the write of round [r] being the point
      where the spectrum of the estimate's sub-grid of round [r] has its
      flattened argmax;
    - a finer sub-grid is built from the sub-grid of every estimate in
      every round but the last, and the sub-grid of the next round is
      the one so built;
    - the placement object is the same cell of the heap, of the same
      length, entry [i] holding the last point located for estimate [i];
      no other cell and no other attribute changes. *)
Theorem refine_estimates_in_place self f_sp est0 peaks density n_iters w u w' locs :
  heap w !! est0 = Some locs ->
  length (create_refined_grids_at (_search_grid self) peaks density) = length locs ->
  _refine_estimates self f_sp est0 peaks density n_iters w = (Ok u, w') ->
  let sg0 := create_refined_grids_at (_search_grid self) peaks density in
  let N := Z.to_nat n_iters in
  let new := refinement_events self f_sp est0 peaks density n_iters in
  trace w' = trace w ++ new /\ _A w' = _A w /\
  (exists locs',
     heap w' = <[est0 := locs']> (heap w) /\
     length locs' = length locs /\
     (N = 0 -> locs' = locs) /\
     forall i, i < length locs ->
       exists g, sg0 !! i = Some g /\
         Forall2 (fun r v => exists i_max,
                    locate self f_sp (subgrid_at self f_sp density r g) = Ok (i_max, v))
           (seq 0 N) (writes_to est0 i new) /\
         (0 < N -> exists i_max v,
            locate self f_sp (subgrid_at self f_sp density (N - 1) g) = Ok (i_max, v) /\
            locs' !! i = Some v)) /\
  refined_from new =
    concat (map (fun r => map (subgrid_at self f_sp density r) sg0) (seq 0 (N - 1))) /\
  (forall r g, S r < N -> In g sg0 ->
     zoom self f_sp density (subgrid_at self f_sp density r g) =
       Ok (subgrid_at self f_sp density (S r) g)).
Proof.
  intros Hlocs Hone Hrun sg0 N new. subst sg0 N new.
  destruct (refine_estimates_ok _ _ _ _ _ _ _ _ _ _ Hrun Hlocs)
    as (locs' & -> & Hlen & _ & Hzero & Hnew).
  assert (Hevents : exists rounds,
            refinement_events self f_sp est0 peaks density n_iters =
              [Call_refine_estimates est0 peaks density n_iters;
               Call_create_refined_grids_at peaks density] ++ rounds /\
            rounds =
              concat (map (fun r =>
                             round_events self f_sp est0 density (is_final n_iters r)
                               (map (subgrid_at self f_sp density r)
                                  (create_refined_grids_at (_search_grid self) peaks density)))
                        (seq 0 (Z.to_nat n_iters)))) by (eexists; split; reflexivity).
  destruct Hevents as (rounds & Hevents & Hrounds).
  remember (create_refined_grids_at (_search_grid self) peaks density) as sg0 eqn:Hsg0.
  remember (Z.to_nat n_iters) as N eqn:HN.
  assert (Hall : forall r g, r < N -> In g sg0 ->
            exists i_max v,
              locate self f_sp (subgrid_at self f_sp density r g) = Ok (i_max, v)).
  { intros r g Hr Hg. apply list_elem_of_In, list_elem_of_lookup in Hg as [i Hg].
    destruct (Hnew r i g Hr Hg) as (i_max & v & Hloc & _). eauto. }
  cbn [trace _A heap]. split; [done|]. split; [done|]. split; [|split].
  - exists locs'. split_and!; [done|done|done|].
    intros i Hi.
    destruct (lookup_lt_is_Some_2 sg0 i) as [g Hg]; [lia|].
    exists g. split; [done|]. split.
    + rewrite Hevents, writes_to_app.
      change (writes_to est0 i [_; _]) with (@nil Loc). rewrite app_nil_l.
      rewrite Hrounds, writes_to_concat, map_map.
      rewrite (map_ext _ (fun r => match locate self f_sp (subgrid_at self f_sp density r g) with
                                   | Ok (_, v) => [v]
                                   | Raise _ => []
                                   end)); cycle 1.
      { intros r. apply writes_to_round. by rewrite list_lookup_fmap, Hg. }
      apply (writes_located self f_sp (fun r => subgrid_at self f_sp density r g)).
      intros r Hr%in_seq. apply Hall; [lia|].
      apply list_elem_of_In, list_elem_of_lookup. eauto.
    + intros Hpos. destruct (Hnew (N - 1) i g ltac:(lia) Hg) as (i_max & v & Hloc & _ & Hv).
      exists i_max, v. split; [done|]. apply Hv. lia.
  - rewrite Hevents, refined_from_app.
    change (refined_from [_; _]) with (@nil G). rewrite app_nil_l.
    rewrite Hrounds, refined_from_concat, map_map.
    rewrite (map_ext_in _ (fun r => if is_final n_iters r then []
                                    else map (subgrid_at self f_sp density r) sg0));
      cycle 1.
    { intros r Hr%in_seq.
      apply (refined_from_round_from self f_sp est0 density (is_final n_iters r)
               (map (subgrid_at self f_sp density r) sg0)) with (off := 0).
      intros g' (g & <- & Hg)%in_map_iff. apply Hall; [lia|done]. }
    destruct N as [|N']; [done|].
    replace (S N' - 1) with N' by lia.
    rewrite seq_S, map_app, concat_app. simpl.
    replace (is_final n_iters N') with true by (unfold is_final; lia).
    simpl. rewrite app_nil_r. f_equal. apply map_ext_in.
    intros r Hr%in_seq.
    replace (is_final n_iters r) with false; [done|].
    unfold is_final. symmetry. apply Z.eqb_neq. lia.
  - intros r g Hr Hg. apply list_elem_of_In, list_elem_of_lookup in Hg as [i Hg].
    destruct (Hnew r i g ltac:(lia) Hg) as (i_max & v & _ & Hz & _). by apply Hz.
Qed.

(** *** What _estimate returns *)

(** C2.  When the peak finder returns fewer than [k] peaks, [_estimate]
    returns (no exception) the pair [(False, None)], or the triple
    [(False, None, None)] when the spectrum was asked for.  After the
    call of the peak finder nothing else happens: the trace ends with
    that call, and the heap and the cache slot are as the getter left
    them. *)
Theorem estimate_too_few_peaks self f_sp k rs re d it w A w1 flat sp peaks first :
  _get_steering_matrix self w = (Ok A, w1) ->
  f_sp A = Ok flat ->
  np_reshape flat (shape (_search_grid self)) = Ok sp ->
  _peak_finder self sp = Ok peaks ->
  tuple_first peaks = Ok first ->
  (Z.of_nat (length first) < k)%Z ->
  exists w',
    _estimate self f_sp k rs re d it w =
      (Ok (if rs then Ret3 false None None else Ret2 false None), w') /\
    trace w' = trace w1 ++ [Call_f_sp A; Call_peak_finder sp] /\
    heap w' = heap w1 /\ _A w' = _A w1.
Proof.
  intros Hget Hf Hsp Hpk Hfirst Hlt. eexists. split.
  - by apply estimate_unresolved with flat peaks first.
  - done.
Qed.

Lemma estimate_resolves_nonpositive self f_sp k rs re d it w res w' :
  (k <= 0)%Z ->
  _estimate self f_sp k rs re d it w = (Ok res, w') ->
  resolved_of res = true.
Proof.
  intros Hk Hrun. unfold _estimate in Hrun.
  apply bind_ok_inv in Hrun as (A & w1 & _ & Hrun).
  apply bind_ok_inv in Hrun as (flat & w2 & _ & Hrun).
  apply bind_ok_inv in Hrun as (sp & w3 & _ & Hrun).
  apply bind_ok_inv in Hrun as (peaks & w4 & _ & Hrun).
  apply bind_ok_inv in Hrun as (first & w5 & _ & Hrun).
  destruct (Z.ltb_spec (Z.of_nat (length first)) k); [lia|].
  apply bind_ok_inv in Hrun as (vals & w6 & _ & Hrun).
  apply bind_ok_inv in Hrun as (order & w7 & _ & Hrun).
  apply bind_ok_inv in Hrun as (axes & w8 & _ & Hrun).
  apply bind_ok_inv in Hrun as (offs & w9 & _ & Hrun).
  apply bind_ok_inv in Hrun as (offs' & w10 & _ & Hrun).
  apply bind_ok_inv in Hrun as (est & w11 & _ & Hrun).
  apply bind_ok_inv in Hrun as (u & w12 & _ & Hrun).
  destruct rs; apply ret_ok_inv in Hrun as [-> _]; done.
Qed.

(** C9.  With [k = 0] the test [n_peaks < k] never holds: whatever the
    call returns, it is not the unresolved result.  The slice
    [argsort(values)[-0:]] keeps every position, so on a well-formed
    peak set the estimates are the grid points of all detected peaks:
    as many entries as peaks, not zero. *)
Theorem estimate_zero_sources_keeps_all_peaks self f_sp rs d it w A w1 flat sp peaks first vals :
  _get_steering_matrix self w = (Ok A, w1) ->
  f_sp A = Ok flat ->
  np_reshape flat (shape (_search_grid self)) = Ok sp ->
  _peak_finder self sp = Ok peaks ->
  tuple_first peaks = Ok first ->
  getitem_tuple sp peaks = Ok vals ->
  shape_size (shape (_search_grid self)) <= length (source_placement (_search_grid self)) ->
  let shp := shape (_search_grid self) in
  let offsets := selected_offsets shp peaks vals 0 in
  (forall re w0 res w', _estimate self f_sp 0 rs re d it w0 = (Ok res, w') ->
     resolved_of res = true) /\
  Permutation offsets (map (peak_offset shp peaks) (seq 0 (length first))) /\
  exists locs w2,
    _estimate self f_sp 0 rs false d it w =
      (Ok (if rs then Ret3 true (Some (length (heap w1))) (Some sp)
           else Ret2 true (Some (length (heap w1)))), w2) /\
    heap w2 = heap w1 ++ [locs] /\
    getitem_array (source_placement (_search_grid self)) offsets = Ok locs /\
    length locs = length first.
Proof.
  intros Hget Hf Hsp Hpk Hfirst Hvals Hsize shp offsets.
  split; [intros re w0 res w'; by apply estimate_resolves_nonpositive|].
  assert (Hn : length vals = length first).
  { destruct peaks as [|first' rest]; [done|]. injection Hfirst as ->.
    by destruct (getitem_tuple_ok _ _ _ _ Hvals) as (_ & ? & _). }
  assert (Hperm : Permutation offsets (map (peak_offset shp peaks) (seq 0 (length first)))).
  { unfold offsets, selected_offsets. rewrite np_sort_perm, top_positions_zero.
    apply Permutation_map. rewrite <- Hn. apply np_argsort_perm. }
  split; [done|].
  destruct (estimate_resolved self f_sp 0 rs false d it w A w1 flat sp peaks first vals)
    as (locs & Hlocs & Hrun); try done; [lia|].
  exists locs. eexists. split; [exact Hrun|]. split; [done|]. split; [done|].
  apply omap_length in Hlocs. rewrite Hlocs.
  fold shp. fold offsets. rewrite (Permutation_length Hperm).
  by rewrite length_map, length_seq.
Qed.

Lemma selected_offsets_perm shp peaks vals k :
  Permutation (selected_offsets shp peaks vals k)
    (map (peak_offset shp peaks) (top_positions vals k)).
Proof. apply np_sort_perm. Qed.

(** C1 (as amended).  For [1 <= k <= n_peaks] on a well-formed peak set:
    the slice keeps [k] distinct positions of the peak list, each with a
    sample at least as large as that of every position left out; the
    flattened indices of the kept peaks are sorted in ascending order
    (whatever their samples), and the estimates are the grid points at
    these indices, one per requested source.  Without refinement the
    call returns them; with refinement, a call that returns has handed
    this placement object, with the coordinates of the sorted indices,
    to [_refine_estimates], and the object still has [k] entries. *)
Theorem estimate_selects_top_k_in_grid_order
    self f_sp k rs d it w A w1 flat sp peaks first vals :
  _get_steering_matrix self w = (Ok A, w1) ->
  f_sp A = Ok flat ->
  np_reshape flat (shape (_search_grid self)) = Ok sp ->
  _peak_finder self sp = Ok peaks ->
  tuple_first peaks = Ok first ->
  getitem_tuple sp peaks = Ok vals ->
  shape_size (shape (_search_grid self)) <= length (source_placement (_search_grid self)) ->
  (1 <= k <= Z.of_nat (length first))%Z ->
  let shp := shape (_search_grid self) in
  let sel := top_positions vals k in
  let offsets := selected_offsets shp peaks vals k in
  let est := length (heap w1) in
  let res : estimate_result ref :=
    if rs then Ret3 true (Some est) (Some sp) else Ret2 true (Some est) in
  let selection_events : list (@event W G Loc Mat) :=
    [Call_f_sp A; Call_peak_finder sp; Call_argsort vals;
     Call_sort (map (peak_offset shp peaks) sel); Call_placement_getitem offsets] in
  (length sel = Z.to_nat k /\ NoDup sel /\
   (forall j, In j sel -> j < length first) /\
   (forall j j', In j sel -> j' < length first -> ~ In j' sel ->
      (nth j' vals 0 <= nth j vals 0)%Z)) /\
  (Sorted le offsets /\ Permutation offsets (map (peak_offset shp peaks) sel)) /\
  exists locs,
    getitem_array (source_placement (_search_grid self)) offsets = Ok locs /\
    length locs = Z.to_nat k /\
    _estimate self f_sp k rs false d it w =
      (Ok res, mk_world (_A w1) (heap w1 ++ [locs]) (trace w1 ++ selection_events)) /\
    (forall res' w3,
       _estimate self f_sp k rs true d it w = (Ok res', w3) ->
       res' = res /\
       exists locs3,
         length locs3 = Z.to_nat k /\
         w3 = mk_world (_A w1) (heap w1 ++ [locs3])
                (trace w1 ++ selection_events ++
                 refinement_events self f_sp est
                   (axes_of (length shp) (map (unravel_offset shp) offsets))
                   default_density default_n_iters)).
Proof.
  intros Hget Hf Hsp Hpk Hfirst Hvals Hsize Hk shp sel offsets est res selection_events.
  subst shp sel offsets est res selection_events.
  assert (Hn : length vals = length first).
  { destruct peaks as [|first' rest]; [done|]. injection Hfirst as ->.
    by destruct (getitem_tuple_ok _ _ _ _ Hvals) as (_ & ? & _). }
  assert (Hsel : length (top_positions vals k) = Z.to_nat k).
  { apply top_positions_length_pos. lia. }
  split.
  { split; [done|]. split; [apply top_positions_NoDup|]. split.
    - intros j Hj%top_positions_bound. lia.
    - intros j j' Hj Hj' Hout. apply (top_positions_dominate vals k); [done|lia|done]. }
  split.
  { split; [apply np_sort_sorted|apply selected_offsets_perm]. }
  destruct (estimate_resolved self f_sp k rs false d it w A w1 flat sp peaks first vals)
    as (locs & Hlocs & Hrun); try done; [lia|].
  exists locs. split; [done|].
  assert (Hlen : length locs = Z.to_nat k).
  { apply omap_length in Hlocs. rewrite Hlocs.
    rewrite (Permutation_length (selected_offsets_perm _ _ _ _)).
    by rewrite length_map. }
  split; [done|]. split; [exact Hrun|].
  intros res' w3 Hrun3.
  destruct (estimate_resolved self f_sp k rs true d it w A w1 flat sp peaks first vals)
    as (locs0 & Hlocs0 & Hrun0); try done; [lia|].
  rewrite Hlocs in Hlocs0. injection Hlocs0 as <-.
  cbv zeta in Hrun0. rewrite Hrun0 in Hrun3. clear Hrun0.
  destruct (_refine_estimates _ _ _ _ _ _ _) as [[u|e] w3'] eqn:Href; [|done].
  injection Hrun3 as <- <-. split; [done|].
  destruct (refine_estimates_ok _ _ _ _ _ _ _ _ _ locs Href)
    as (locs3 & -> & Hlen3 & _).
  { simpl. by rewrite list_lookup_middle. }
  exists locs3. split; [lia|]. simpl. f_equal.
  - rewrite insert_app_r_alt by lia. by rewrite Nat.sub_diag.
  - by rewrite <- app_assoc.
Qed.

(** The refinement parameters of [_estimate] play no part in it. *)
Lemma estimate_refinement_parameters_unused self f_sp k rs re d it d' it' :
  _estimate self f_sp k rs re d it = _estimate self f_sp k rs re d' it'.
Proof. reflexivity. Qed.

End PipelineFacts.

(** ** The model on the demo estimator *)

Lemma steering_matrix_computed_once_witness :
  (forall A w0, _A w0 = Some A -> _get_steering_matrix demo_estimator w0 = (Ok A, w0)) /\
  exists w',
    get_steering_matrix_times demo_estimator 3 demo_world =
      (Ok (repeat (grid_steering_matrix demo_estimator) 3), w') /\
    heap w' = heap demo_world /\
    if _enable_caching demo_estimator then
      trace w' = trace demo_world ++ repeat (grid_steering_call demo_estimator) (Nat.min 1 3) /\
      _A w' = Some (grid_steering_matrix demo_estimator)
    else
      trace w' = trace demo_world ++ repeat (grid_steering_call demo_estimator) 3 /\
      _A w' = None.
Proof.
  apply (steering_matrix_computed_once demo_estimator 3 demo_world). reflexivity.
Defined.

Lemma estimate_too_few_peaks_witness :
  exists w',
    _estimate demo_estimator two_lobes 3 true false 10 3 demo_world =
      (Ok (Ret3 false None None), w') /\
    trace w' = trace demo_cached ++ [Call_f_sp demo_A; Call_peak_finder demo_sp] /\
    heap w' = heap demo_cached /\ _A w' = _A demo_cached.
Proof.
  apply (estimate_too_few_peaks demo_estimator two_lobes 3 true false 10 3
           demo_world demo_A demo_cached demo_flat demo_sp demo_peaks [1; 4]);
    try reflexivity.
Defined.

Lemma estimate_zero_sources_keeps_all_peaks_witness :
  exists locs w2,
    _estimate demo_estimator two_lobes 0 false false 10 3 demo_world =
      (Ok (Ret2 true (Some 0)), w2) /\
    heap w2 = [locs] /\ length locs = 2.
Proof.
  destruct (estimate_zero_sources_keeps_all_peaks demo_estimator two_lobes false 10 3
              demo_world demo_A demo_cached demo_flat demo_sp demo_peaks [1; 4] demo_values)
    as (_ & _ & locs & w2 & Hrun & Hheap & _ & Hlen);
    try reflexivity; try (simpl; lia).
  exists locs, w2. split; [exact Hrun|]. split; [exact Hheap|exact Hlen].
Defined.

Lemma estimate_selects_top_k_in_grid_order_witness :
  Sorted le (selected_offsets [7] demo_peaks demo_values 2) /\
  exists locs,
    length locs = 2 /\
    _estimate demo_estimator two_lobes 2 false false 10 3 demo_world =
      (Ok (Ret2 true (Some 0)),
       mk_world (Some demo_A) [locs]
         (trace demo_cached ++
          [Call_f_sp demo_A; Call_peak_finder demo_sp; Call_argsort demo_values;
           Call_sort (map (peak_offset [7] demo_peaks) (top_positions demo_values 2));
           Call_placement_getitem (selected_offsets [7] demo_peaks demo_values 2)])).
Proof.
  destruct (estimate_selects_top_k_in_grid_order demo_estimator two_lobes 2 false 10 3
              demo_world demo_A demo_cached demo_flat demo_sp demo_peaks [1; 4] demo_values)
    as (_ & (Hsorted & _) & locs & _ & Hlen & Hrun & _);
    try reflexivity; try (simpl; lia).
  split; [exact Hsorted|]. exists locs. split; [exact Hlen|exact Hrun].
Defined.

(** C1 as stated fails for [k = 0]: two peaks are detected, the call
    resolves, and the estimates have two entries, not [k]. *)
Lemma estimate_zero_sources_not_k_entries :
  exists w',
    _estimate demo_estimator two_lobes 0 false false 10 3 demo_world =
      (Ok (Ret2 true (Some 0)), w') /\
    _peak_finder demo_estimator demo_sp = Ok demo_peaks /\
    (0 <= Z.of_nat (length [1; 4]))%Z /\
    heap w' !! 0 = Some [1000; 4000]%Z /\
    length [1000; 4000]%Z <> Z.to_nat 0.
Proof.
  eexists. split; [vm_compute; reflexivity|].
  split; [reflexivity|]. split; [simpl; lia|]. split; [reflexivity|]. simpl. lia.
Qed.

Lemma refine_estimates_in_place_witness :
  trace demo_refined =
    trace demo_coarse ++ refinement_events demo_estimator two_lobes 0 demo_peaks 10 3 /\
  _A demo_refined = _A demo_coarse /\
  writes_to 0 0 (refinement_events demo_estimator two_lobes 0 demo_peaks 10 3) =
    [1200; 1230; 1234]%Z /\
  writes_to 0 1 (refinement_events demo_estimator two_lobes 0 demo_peaks 10 3) =
    [4300; 4320; 4321]%Z.
Proof.
  destruct (refine_estimates_in_place demo_estimator two_lobes 0 demo_peaks 10 3
              demo_coarse tt demo_refined [1000; 4000]%Z)
    as (Htrace & Hcache & _);
    [reflexivity | reflexivity | vm_compute; reflexivity |].
  split; [exact Htrace|]. split; [exact Hcache|].
  split; vm_compute; reflexivity.
Defined.

(** C3.  The refinement parameters given to [_estimate] are not handed
    on: [_refine_estimates] is called with the defaults of its signature.
    On the demo estimator, a call with [refinement_density = 20] and
    [refinement_iters = 5] refines with density 10 in 3 rounds. *)
Theorem estimate_refines_with_default_parameters :
  (forall (self : @SpectrumBasedEstimatorBase unit Z line_grid) f_sp k rs re d it d' it',
     _estimate self f_sp k rs re d it = _estimate self f_sp k rs re d' it') /\
  let w' := (_estimate demo_estimator two_lobes 2 false true 20 5 demo_world).2 in
  refine_calls (trace w') = [(0, [[1; 4]], 10%Z, 3%Z)] /\
  writes_to 0 0 (trace w') = [1200; 1230; 1234]%Z /\
  heap w' = [[1234; 4321]%Z].
Proof.
  split; [intros; reflexivity|]. repeat split; reflexivity.
Qed.

(** * Further properties *)

(** ** Flattened indices and coordinates *)

Lemma coord_in_bounds_length shp coord :
  coord_in_bounds shp coord = true -> length coord = length shp.
Proof.
  unfold coord_in_bounds. intros [Hlen _]%andb_true_iff. by apply Nat.eqb_eq.
Qed.

Lemma shape_size_cons d shp : shape_size (d :: shp) = d * shape_size shp.
Proof. done. Qed.

Lemma ravel_offset_acc shp coord acc :
  length coord = length shp ->
  ravel_offset shp coord acc = acc * shape_size shp + ravel_offset shp coord 0.
Proof.
  revert coord acc. induction shp as [|d shp IH]; intros coord acc Hlen.
  - destruct coord; simpl in *; [lia|done].
  - destruct coord as [|c coord]; [done|]. simpl in Hlen.
    simpl ravel_offset. rewrite shape_size_cons.
    rewrite (IH coord (acc * d + c)), (IH coord c) by lia. lia.
Qed.

Lemma unravel_offset_length shp p : length (unravel_offset shp p) = length shp.
Proof. induction shp as [|d shp IH]; simpl; [done|]. by rewrite IH. Qed.

Lemma unravel_offset_in_bounds shp p :
  0 < shape_size shp -> coord_in_bounds shp (unravel_offset shp p) = true.
Proof.
  induction shp as [|d shp IH]; intros Hpos; [done|].
  rewrite shape_size_cons in Hpos. simpl unravel_offset.
  rewrite coord_in_bounds_cons. apply andb_true_iff. split.
  - apply Nat.ltb_lt, Nat.mod_upper_bound. lia.
  - apply IH. lia.
Qed.

Lemma ravel_unravel_mod shp p acc :
  0 < shape_size shp ->
  ravel_offset shp (unravel_offset shp p) acc = acc * shape_size shp + p mod shape_size shp.
Proof.
  revert acc. induction shp as [|d shp IH]; intros acc Hpos.
  - change (acc = acc * 1 + p mod 1). rewrite Nat.mod_1_r. lia.
  - rewrite shape_size_cons in *. simpl.
    change (fold_right Nat.mul 1 shp) with (shape_size shp).
    rewrite IH by lia.
    rewrite (Nat.mul_comm d (shape_size shp)), Nat.Div0.mod_mul_r. lia.
Qed.

(** Flattening the coordinate of an offset gives the offset back. *)
Lemma ravel_unravel shp p :
  p < shape_size shp -> ravel_offset shp (unravel_offset shp p) 0 = p.
Proof.
  intros Hp. rewrite ravel_unravel_mod by lia. simpl. by apply Nat.mod_small.
Qed.

Lemma unravel_offset_add shp q r :
  unravel_offset shp (q * shape_size shp + r) = unravel_offset shp r.
Proof.
  revert q. induction shp as [|d shp IH]; intros q; [done|].
  simpl. change (fold_right Nat.mul 1 shp) with (shape_size shp).
  f_equal.
  - destruct (decide (shape_size shp = 0)) as [Hz|Hnz].
    + rewrite Hz. done.
    + replace (q * (d * shape_size shp) + r) with (q * d * shape_size shp + r) by lia.
      rewrite Nat.div_add_l by done.
      rewrite (Nat.add_comm (q * d)), Nat.Div0.mod_add. done.
  - replace (q * (d * shape_size shp) + r) with (q * d * shape_size shp + r) by lia.
    apply IH.
Qed.

(** The coordinate of the flattened index of an in-bounds coordinate is
    that coordinate. *)
Lemma unravel_ravel shp coord :
  coord_in_bounds shp coord = true ->
  unravel_offset shp (ravel_offset shp coord 0) = coord.
Proof.
  revert coord. induction shp as [|d shp IH]; intros coord Hb.
  - apply coord_in_bounds_length in Hb. by destruct coord.
  - destruct coord as [|c coord]; [done|].
    rewrite coord_in_bounds_cons in Hb. apply andb_true_iff in Hb as [Hc Hb].
    apply Nat.ltb_lt in Hc.
    pose proof (ravel_offset_lt shp coord Hb) as Hlt.
    simpl ravel_offset.
    rewrite ravel_offset_acc by (by apply coord_in_bounds_length).
    simpl unravel_offset. change (fold_right Nat.mul 1 shp) with (shape_size shp).
    f_equal.
    + rewrite Nat.div_add_l by lia. rewrite (Nat.div_small _ _ Hlt).
      rewrite Nat.add_0_r. by apply Nat.mod_small.
    + rewrite unravel_offset_add. by apply IH.
Qed.

Lemma peak_point_axes_of rank (pts : list (list nat)) i pt :
  pts !! i = Some pt -> length pt = rank ->
  peak_point (axes_of rank pts) i = pt.
Proof.
  intros Hi Hlen. unfold peak_point, axes_of. rewrite map_map.
  apply nth_ext with (d := 0) (d' := 0).
  - by rewrite length_map, length_seq.
  - intros a Ha. rewrite length_map, length_seq in Ha.
    rewrite (nth_indep _ 0 (nth i (map (fun pt0 => nth 0 pt0 0) pts) 0))
      by (by rewrite length_map, length_seq).
    rewrite (map_nth (fun a0 => nth i (map (fun pt0 => nth a0 pt0 0) pts) 0) (seq 0 rank) 0 a).
    rewrite seq_nth by done. simpl.
    rewrite (nth_indep _ 0 (nth a [] 0)); cycle 1.
    { rewrite length_map. by eapply lookup_lt_Some. }
    rewrite (map_nth (fun pt0 => nth a pt0 0) pts [] i).
    by rewrite (nth_lookup_Some _ _ _ _ Hi).
Qed.

(** ** argmax *)

Lemma argmax_from_spec (pre v : list Z) (best_i : nat) (best : Z) :
  best_i < length pre ->
  nth best_i pre 0%Z = best ->
  (forall j, j < length pre -> (nth j pre 0 <= best)%Z) ->
  (forall j, j < best_i -> (nth j pre 0 < best)%Z) ->
  let r := argmax_from best_i best (length pre) v in
  r < length (pre ++ v) /\
  (forall j, j < length (pre ++ v) -> (nth j (pre ++ v) 0 <= nth r (pre ++ v) 0)%Z) /\
  (forall j, j < r -> (nth j (pre ++ v) 0 < nth r (pre ++ v) 0)%Z).
Proof.
  revert pre best_i best. induction v as [|y v IH]; intros pre best_i best Hbi Hbest Hle Hlt.
  - simpl. rewrite app_nil_r. rewrite Hbest. done.
  - simpl argmax_from.
    replace (pre ++ y :: v) with ((pre ++ [y]) ++ v) by (by rewrite <- app_assoc).
    assert (Hl : length (pre ++ [y]) = S (length pre))
      by (rewrite length_app; simpl; lia).
    rewrite <- Hl.
    destruct (Z.ltb_spec best y) as [Hnew|Hold].
    + apply (IH (pre ++ [y]) (length pre) y).
      * lia.
      * by rewrite nth_middle.
      * intros j Hj. rewrite Hl in Hj.
        destruct (decide (j = length pre)) as [->|Hne].
        -- rewrite nth_middle. lia.
        -- rewrite app_nth1 by lia. specialize (Hle j ltac:(lia)). lia.
      * intros j Hj.
        rewrite app_nth1 by lia. specialize (Hle j ltac:(lia)). lia.
    + apply (IH (pre ++ [y]) best_i best).
      * lia.
      * by rewrite app_nth1 by lia.
      * intros j Hj. rewrite Hl in Hj.
        destruct (decide (j = length pre)) as [->|Hne].
        -- rewrite nth_middle. lia.
        -- rewrite app_nth1 by lia. apply Hle. lia.
      * intros j Hj. rewrite app_nth1 by lia. by apply Hlt.
Qed.

(** [argmax] returns a position of the maximum, and the first one. *)
Lemma np_argmax_spec (v : list Z) (i : nat) :
  np_argmax v = Ok i ->
  i < length v /\
  (forall j, j < length v -> (nth j v 0 <= nth i v 0)%Z) /\
  (forall j, j < i -> (nth j v 0 < nth i v 0)%Z).
Proof.
  destruct v as [|y v]; [done|]. simpl. intros [= <-].
  apply (argmax_from_spec [y] v 0 y); simpl; try lia; try done.
  intros j Hj. replace j with 0 by lia. simpl. lia.
Qed.

Lemma np_argmax_total (v : list Z) :
  v <> [] -> exists i, np_argmax v = Ok i.
Proof. destruct v; [done|]. intros _. simpl. eauto. Qed.

(** ** The default peak finder *)

Lemma local_maxima_loop_spacing x i_max fuel :
  forall i,
  let l := local_maxima_loop x i_max fuel i in
  Forall (fun m => i <= m /\ S m <= i_max) l /\
  StronglySorted (fun a b => a + 2 <= b) l /\
  2 * length l <= i_max + 1 - i.
Proof.
  induction fuel as [|fuel IH]; intros i; simpl.
  - split_and!; [constructor|constructor|simpl; lia].
  - destruct (Nat.ltb_spec i i_max) as [Hlt|Hge];
      [|split_and!; [constructor|constructor|simpl; lia]].
    assert (Hnext : let l := local_maxima_loop x i_max fuel (S i) in
              Forall (fun m => i <= m /\ S m <= i_max) l /\
              StronglySorted (fun a b => a + 2 <= b) l /\
              2 * length l <= i_max + 1 - i).
    { destruct (IH (S i)) as (Hall & Hsorted & Hlen). split_and!; [|done|lia].
      eapply Forall_impl; [exact Hall|]. simpl. intros m ?. lia. }
    destruct (Z.ltb_spec (nth (i - 1) x 0%Z) (nth i x 0%Z)); [|exact Hnext].
    destruct (plateau_end_spec x (nth i x 0%Z) i_max (i_max - S i) (S i))
      as ((Hlo & Hhi) & _); [lia|lia|].
    set (i_ahead := plateau_end x (nth i x 0%Z) i_max (i_max - S i) (S i)) in *.
    destruct (Z.ltb_spec (nth i_ahead x 0%Z) (nth i x 0%Z)); [|exact Hnext].
    destruct (IH (S i_ahead)) as (Hall & Hsorted & Hlen).
    assert (Hm : i <= (i + (i_ahead - 1)) / 2 <= i_ahead - 1).
    { split.
      - apply Nat.div_le_lower_bound; lia.
      - apply Nat.Div0.div_le_upper_bound. lia. }
    change ((Nat.divmod (i + (i_ahead - 1)) 1 0 1).1) with ((i + (i_ahead - 1)) / 2).
    split_and!.
    + constructor; [lia|]. eapply Forall_impl; [exact Hall|]. intros m [? ?]. lia.
    + constructor; [done|]. eapply Forall_impl; [exact Hall|].
      intros m [? ?]. cbv beta. lia.
    + cbn [length]. lia.
Qed.

Lemma fold_max_ge (v : Z) (l : list Z) :
  (v <= fold_right Z.max v l)%Z /\ forall e, In e l -> (e <= fold_right Z.max v l)%Z.
Proof.
  induction l as [|y l [IHv IHl]]; simpl; [split; [lia|done]|].
  split; [lia|]. intros e [<-|He]; [lia|]. specialize (IHl e He). lia.
Qed.

Lemma fold_max_eq (v : Z) (l : list Z) :
  fold_right Z.max v l = v <-> forall e, In e l -> (e <= v)%Z.
Proof.
  split.
  - intros Heq e He. pose proof (proj2 (fold_max_ge v l) e He) as Hle.
    by rewrite Heq in Hle.
  - induction l as [|y l IH]; intros Hall; simpl; [done|].
    rewrite IH by (intros; apply Hall; by right).
    specialize (Hall y ltac:(by left)). lia.
Qed.

Lemma window3_cons d shp c coord :
  window3 (d :: shp) (c :: coord) =
  rest ← window3 shp coord; c' ← [c - 1; c; Nat.min (S c) (d - 1)]; [c' :: rest].
Proof. done. Qed.

Lemma window3_spec shp coord coord' :
  length coord = length shp ->
  In coord' (window3 shp coord) <->
  Forall3 (fun d c c' => c' = c - 1 \/ c' = c \/ c' = Nat.min (S c) (d - 1))
    shp coord coord'.
Proof.
  revert coord coord'. induction shp as [|d shp IH]; intros coord coord' Hlen.
  - destruct coord; [|done]. simpl. split.
    + intros [<-|[]]. constructor.
    + intros Hall. inversion Hall. by left.
  - destruct coord as [|c coord]; [done|]. simpl in Hlen.
    rewrite window3_cons, <- list_elem_of_In, list_elem_of_bind. split.
    + intros (rest & Hin & Hrest).
      apply list_elem_of_bind in Hin as (c' & Hc' & Hin).
      apply list_elem_of_singleton in Hc' as ->.
      constructor.
      * repeat (apply elem_of_cons in Hin as [->|Hin]; [tauto|]).
        by apply elem_of_nil in Hin.
      * apply IH; [lia|]. by apply list_elem_of_In.
    + intros Hall. inversion Hall as [|? ? c' ? ? rest Hc Hrest]; subst.
      exists rest. split.
      * apply list_elem_of_bind. exists c'. split; [by apply list_elem_of_singleton|].
        rewrite !elem_of_cons. tauto.
      * apply list_elem_of_In, IH; [lia|done].
Qed.

Lemma nth_imap_Z (f : nat -> Z -> Z) (l : list Z) p :
  p < length l -> nth p (imap f l) 0%Z = f p (nth p l 0%Z).
Proof.
  intros Hp. destruct (lookup_lt_is_Some_2 l p Hp) as [v Hv].
  rewrite (nth_lookup_Some l p 0%Z v Hv).
  apply nth_lookup_Some. by rewrite list_lookup_imap, Hv.
Qed.

(** The flattened positions [np.where(x == maximum_filter(x, 3))] keeps. *)
Lemma where_positions_spec (x : ndarray) p :
  In p (filter (fun p => nth p (nd_data x) 0%Z = nth p (nd_data (maximum_filter3 x)) 0%Z)
          (seq 0 (length (nd_data x)))) <->
  p < length (nd_data x) /\
  forall c, In c (window3 (nd_shape x) (unravel_offset (nd_shape x) p)) ->
    (sample_at x c <= nth p (nd_data x) 0)%Z.
Proof.
  rewrite <- list_elem_of_In, list_elem_of_filter, list_elem_of_In, in_seq.
  split.
  - intros [Heq [_ Hp]]. split; [simpl in Hp; lia|].
    simpl in Heq. rewrite nth_imap_Z in Heq by (simpl in Hp; lia).
    symmetry in Heq. rewrite fold_max_eq in Heq.
    intros c Hc. apply Heq, in_map_iff. eauto.
  - intros [Hp Hwin]. split; [|simpl; lia].
    simpl. rewrite nth_imap_Z by done. symmetry. apply fold_max_eq.
    intros e (c & <- & Hc)%in_map_iff. by apply Hwin.
Qed.

Lemma axes_of_first_length rank (pts : list (list nat)) :
  1 <= rank -> length (nth 0 (axes_of rank pts) []) = length pts.
Proof.
  intros Hrank. unfold axes_of. destruct rank as [|rank]; [lia|].
  simpl. by rewrite length_map.
Qed.

Lemma window3_in_bounds shp coord coord' :
  coord_in_bounds shp coord = true ->
  Forall3 (fun d c c' => c' = c - 1 \/ c' = c \/ c' = Nat.min (S c) (d - 1))
    shp coord coord' ->
  coord_in_bounds shp coord' = true.
Proof.
  intros Hb Hall. revert Hb. induction Hall as [|d c c' shp coord coord' Hc Hall IH].
  - done.
  - rewrite !coord_in_bounds_cons. intros [Hlt Hb]%andb_true_iff.
    apply Nat.ltb_lt in Hlt. apply andb_true_iff. split; [|by apply IH].
    apply Nat.ltb_lt. lia.
Qed.

Lemma window3_near shp coord coord' :
  coord_in_bounds shp coord = true ->
  Forall3 (fun d c c' => c' = c - 1 \/ c' = c \/ c' = Nat.min (S c) (d - 1))
    shp coord coord' <->
  coord_in_bounds shp coord' = true /\
  Forall2 (fun c c' => c' <= c + 1 /\ c <= c' + 1) coord coord'.
Proof.
  revert coord coord'. induction shp as [|d shp IH]; intros coord coord' Hb.
  - apply coord_in_bounds_length in Hb. destruct coord; [|done]. split.
    + intros Hall. inversion Hall. split; [done|constructor].
    + intros [_ Hall]. inversion Hall. constructor.
  - destruct coord as [|c coord]; [done|].
    rewrite coord_in_bounds_cons in Hb. apply andb_true_iff in Hb as [Hc Hb].
    apply Nat.ltb_lt in Hc. split.
    + intros Hall. inversion Hall as [|? ? c' ? ? rest Hc' Hrest]; subst.
      apply IH in Hrest as [Hb' Hnear]; [|done].
      rewrite coord_in_bounds_cons. split.
      * apply andb_true_iff. split; [apply Nat.ltb_lt; lia|done].
      * constructor; [lia|done].
    + intros [Hb' Hnear]. inversion Hnear as [|? c' ? rest Hc' Hrest]; subst.
      rewrite coord_in_bounds_cons in Hb'. apply andb_true_iff in Hb' as [Hlt' Hb'].
      apply Nat.ltb_lt in Hlt'. constructor; [lia|]. apply IH; done.
Qed.

(** What the n-d branch of [find_peaks_simple] reports, by coordinate. *)
Lemma find_peaks_simple_nd_spec (x : ndarray) (c : list nat) :
  2 <= ndim x ->
  length (nd_data x) = shape_size (nd_shape x) ->
  (exists j, j < length (nth 0 (find_peaks_simple x) []) /\
     peak_point (find_peaks_simple x) j = c) <->
  coord_in_bounds (nd_shape x) c = true /\
  forall c',
    Forall3 (fun d a a' => a' = a - 1 \/ a' = a \/ a' = Nat.min (S a) (d - 1))
      (nd_shape x) c c' ->
    (sample_at x c' <= sample_at x c)%Z.
Proof.
  intros Hdim Hsize. unfold find_peaks_simple.
  destruct (Nat.eqb_spec (ndim x) 1) as [|_]; [lia|].
  unfold np_where_eq.
  set (ps := filter _ (seq 0 (length (nd_data x)))).
  rewrite axes_of_first_length, length_map by lia.
  split.
  - intros (j & Hj & <-).
    destruct (lookup_lt_is_Some_2 ps j Hj) as [p Hp].
    rewrite (peak_point_axes_of (ndim x) _ j (unravel_offset (nd_shape x) p)); cycle 1.
    { by rewrite list_lookup_fmap, Hp. }
    { apply unravel_offset_length. }
    assert (Hin : In p ps) by (apply list_elem_of_In, list_elem_of_lookup; eauto).
    apply where_positions_spec in Hin as [Hlt Hwin].
    split; [apply unravel_offset_in_bounds; lia|].
    intros c' Hc'. unfold sample_at at 2. rewrite ravel_unravel by lia.
    apply Hwin, window3_spec; [apply unravel_offset_length|done].
  - intros [Hb Hmax].
    pose proof (ravel_offset_lt _ _ Hb) as Hlt.
    assert (Hin : In (ravel_offset (nd_shape x) c 0) ps).
    { apply where_positions_spec. split; [lia|].
      rewrite unravel_ravel by done. intros c' Hc'.
      apply Hmax, window3_spec; [by apply coord_in_bounds_length|done]. }
    apply list_elem_of_In, list_elem_of_lookup in Hin as [j Hj].
    exists j. split; [by eapply lookup_lt_Some|].
    rewrite (peak_point_axes_of (ndim x) _ j (unravel_offset (nd_shape x) (ravel_offset (nd_shape x) c 0))).
    + by apply unravel_ravel.
    + by rewrite list_lookup_fmap, Hj.
    + apply unravel_offset_length.
Qed.

(** X10.  On a 1-d array the default peak finder reports its peaks in
    ascending order with at least one other sample between two of them;
    an array of [n] samples therefore has at most [(n - 1) / 2] peaks. *)
Theorem find_peaks_simple_1d_spacing (x : ndarray) :
  ndim x = 1 ->
  exists peaks,
    find_peaks_simple x = [peaks] /\
    StronglySorted (fun a b => a + 2 <= b) peaks /\
    2 * length peaks <= length (nd_data x) - 1.
Proof.
  intros Hdim. exists (local_maxima_1d (nd_data x)).
  split; [unfold find_peaks_simple, find_peaks; by rewrite Hdim|].
  destruct (local_maxima_loop_spacing (nd_data x) (length (nd_data x) - 1)
              (length (nd_data x)) 1) as (_ & Hsorted & Hlen).
  split; [exact Hsorted|]. unfold local_maxima_1d. lia.
Qed.

(** X11.  On an array of rank two or more the default peak finder reports
    exactly the in-bounds coordinates whose sample is not exceeded within
    the window reaching one step along every axis, the window being cut
    at the edges of the array: a point on the border is reported when it
    dominates the part of the window inside the array. *)
Theorem find_peaks_simple_nd (x : ndarray) (c : list nat) :
  2 <= ndim x ->
  length (nd_data x) = shape_size (nd_shape x) ->
  (exists j, j < length (nth 0 (find_peaks_simple x) []) /\
     peak_point (find_peaks_simple x) j = c) <->
  coord_in_bounds (nd_shape x) c = true /\
  forall c',
    coord_in_bounds (nd_shape x) c' = true ->
    Forall2 (fun a a' => a' <= a + 1 /\ a <= a' + 1) c c' ->
    (sample_at x c' <= sample_at x c)%Z.
Proof.
  intros Hdim Hsize. rewrite find_peaks_simple_nd_spec by done.
  split; intros [Hb Hmax]; (split; [done|]).
  - intros c' Hb' Hnear. apply Hmax. by apply window3_near.
  - intros c' Hc'. apply (window3_near _ _ _ Hb) in Hc' as [Hb' Hnear]. by apply Hmax.
Qed.

(** X12.  On a constant array of rank two or more every grid point is
    reported as a peak (on a 1-d array a flat stretch yields at most one
    peak): flat regions inflate the number of detected peaks. *)
Theorem find_peaks_simple_nd_constant (x : ndarray) (v : Z) (c : list nat) :
  2 <= ndim x ->
  length (nd_data x) = shape_size (nd_shape x) ->
  Forall (eq v) (nd_data x) ->
  coord_in_bounds (nd_shape x) c = true ->
  exists j, j < length (nth 0 (find_peaks_simple x) []) /\
    peak_point (find_peaks_simple x) j = c.
Proof.
  intros Hdim Hsize Hconst Hb. apply find_peaks_simple_nd_spec; try done.
  split; [done|]. intros c' Hc'.
  assert (Hval : forall c0, coord_in_bounds (nd_shape x) c0 = true -> sample_at x c0 = v).
  { intros c0 Hb0. unfold sample_at. pose proof (ravel_offset_lt _ _ Hb0) as Hlt.
    rewrite Forall_forall in Hconst. symmetry. apply Hconst.
    apply list_elem_of_In, nth_In. lia. }
  rewrite (Hval c Hb), (Hval c') by (by apply (window3_in_bounds _ c)). lia.
Qed.

(** Indexing a 1-d array with one coordinate array. *)
Lemma getitem_tuple_1d (flat : list Z) (pk : list nat) :
  (forall m, In m pk -> m < length flat) ->
  getitem_tuple (mk_ndarray [length flat] flat) [pk] =
    Ok (map (fun m => nth m flat 0%Z) pk).
Proof.
  intros Hpk. unfold getitem_tuple.
  rewrite points_of_ok by (repeat constructor). simpl obind.
  rewrite <- (map_nth_seq 0 (fun m => nth m flat 0%Z) pk).
  rewrite <- (map_map (fun j => peak_point [pk] j) (fun pt => nth (nth 0 pt 0) flat 0%Z)).
  apply omap_ok_map. intros pt (j & <- & Hj%in_seq)%in_map_iff.
  unfold peak_point. simpl map. cbn [nd_shape nd_data].
  assert (Hm : nth j pk 0 < length flat) by (apply Hpk, nth_In; lia).
  unfold coord_in_bounds. simpl.
  destruct (Nat.ltb_spec (nth j pk 0) (length flat)); [|lia]. simpl.
  destruct (lookup_lt_is_Some_2 flat (nth j pk 0) Hm) as [v Hv].
  rewrite Hv. simpl. f_equal. symmetry. by apply nth_lookup_Some.
Qed.

Lemma peak_offset_1d n (pk : list nat) j :
  peak_offset [n] [pk] j = nth j pk 0.
Proof. done. Qed.

(** ** get_noise_subspace with a negative source count *)

Section NoiseSubspaceMore.
Context {F Rl : Type} `{Scalars F Rl}.

(** X14.  A negative [k] turns the slice [E[:, :-k]] into [E[:, :|k|]]:
    the result keeps the first [min(|k|, n)] eigenvector columns, as a
    positive source count [n - |k|] would. *)
Theorem get_noise_subspace_negative_k
    (eigh : list (list F) -> outcome (list Rl * list (list F)))
    (R : list (list F)) (n : nat) (k : Z) (w : list Rl) (E : list (list F)) :
  eigh R = Ok (w, E) ->
  is_matrix n n E ->
  (k < 0)%Z ->
  exists N,
    get_noise_subspace eigh R k = Ok N /\
    is_matrix n (Nat.min (Z.to_nat (- k)) n) N /\
    (forall j, j < Nat.min (Z.to_nat (- k)) n -> column j N = column j E) /\
    ((- k < Z.of_nat n)%Z ->
     get_noise_subspace eigh R (Z.of_nat n + k) = Ok N).
Proof.
  intros HE HEm Hk.
  assert (Hidx : slice_index n (- k) = Nat.min (Z.to_nat (- k)) n).
  { unfold slice_index. destruct (Z.ltb_spec (- k) 0); lia. }
  exists (map (fun row => slice_to row (- k)%Z) E).
  split; [by apply get_noise_subspace_ok with w|].
  split; [rewrite <- Hidx; by apply slice_columns_matrix|]. split.
  - intros j Hj. apply column_slice_to with n; [apply HEm|lia].
  - intros Hsmall. rewrite (get_noise_subspace_ok eigh R _ w E HE). f_equal.
    apply map_ext_in. intros row Hrow. unfold slice_to.
    destruct HEm as [_ Hcols]. rewrite Forall_forall in Hcols.
    rewrite (Hcols row (proj2 (list_elem_of_In _ _) Hrow)).
    f_equal. unfold slice_index.
    destruct (Z.ltb_spec (- (Z.of_nat n + k)) 0), (Z.ltb_spec (- k) 0); lia.
Qed.
End NoiseSubspaceMore.

(** ** More on _estimate *)

Section PipelineMore.
Context {D W G Loc Mat : Type}.
Context `{ArrayDesign D Loc W Mat} `{SearchGrid G Loc}.
Implicit Types (self : @SpectrumBasedEstimatorBase D W G).
Implicit Types (w : @world W G Loc Mat) (f_sp : Mat -> outcome (list Z)).
Implicit Types (rs re : bool) (k d it density n_iters : Z).

(** X1.  With refinement, [_estimate] hands to [_refine_estimates] the
    coordinates obtained by unflattening the sorted flattened indices.
    The point number [i] of these coordinate arrays is the grid
    coordinate of a selected peak, namely the one whose flattened index
    is the [i]-th smallest: flattening and unflattening lose nothing. *)
Theorem refinement_starts_at_selected_peaks
    self f_sp k rs d it w A w1 flat sp peaks first vals :
  _get_steering_matrix self w = (Ok A, w1) ->
  f_sp A = Ok flat ->
  np_reshape flat (shape (_search_grid self)) = Ok sp ->
  _peak_finder self sp = Ok peaks ->
  tuple_first peaks = Ok first ->
  getitem_tuple sp peaks = Ok vals ->
  shape_size (shape (_search_grid self)) <= length (source_placement (_search_grid self)) ->
  (k <= Z.of_nat (length first))%Z ->
  let shp := shape (_search_grid self) in
  let offsets := selected_offsets shp peaks vals k in
  let coords := axes_of (length shp) (map (unravel_offset shp) offsets) in
  (forall res w3,
     _estimate self f_sp k rs true d it w = (Ok res, w3) ->
     exists u w2,
       _refine_estimates self f_sp (length (heap w1)) coords
         default_density default_n_iters w2 = (Ok u, w3)) /\
  (forall i p, offsets !! i = Some p ->
     peak_point coords i = unravel_offset shp p /\
     ravel_offset shp (peak_point coords i) 0 = p /\
     exists j, In j (top_positions vals k) /\
       peak_point coords i = peak_point peaks j).
Proof.
  intros Hget Hf Hsp Hpk Hfirst Hvals Hsize Hk shp offsets coords.
  subst shp offsets coords. split.
  - intros res w3 Hrun.
    destruct (estimate_resolved self f_sp k rs true d it w A w1 flat sp peaks first vals)
      as (locs & _ & Hrun0); try done.
    cbv zeta in Hrun0. rewrite Hrun0 in Hrun.
    destruct (_refine_estimates _ _ _ _ _ _ _) as [[u|e] w3'] eqn:Href; [|done].
    injection Hrun as _ <-. eauto.
  - intros i p Hi.
    destruct (np_reshape_ok _ _ _ Hsp) as [Hshape _].
    destruct peaks as [|first' rest]; [done|]. injection Hfirst as ->.
    destruct (getitem_tuple_ok _ _ _ _ Hvals) as (_ & Hn & Hb).
    assert (Hpt : peak_point
              (axes_of (length (shape (_search_grid self)))
                 (map (unravel_offset (shape (_search_grid self)))
                    (selected_offsets (shape (_search_grid self)) (first :: rest) vals k))) i
            = unravel_offset (shape (_search_grid self)) p).
    { apply peak_point_axes_of.
      - by rewrite list_lookup_fmap, Hi.
      - apply unravel_offset_length. }
    assert (Hin : In p (selected_offsets (shape (_search_grid self)) (first :: rest) vals k)).
    { apply list_elem_of_In, list_elem_of_lookup. eauto. }
    apply (Permutation_in _ (np_sort_perm _)) in Hin.
    apply in_map_iff in Hin as (j & <- & Hj).
    pose proof (top_positions_bound _ _ _ Hj) as Hjn. rewrite Hn in Hjn.
    destruct (Hb j Hjn) as [Hbound _]. rewrite Hshape in Hbound.
    rewrite Hpt. unfold peak_offset. rewrite unravel_ravel by done.
    split; [done|]. split; [done|]. by exists j.
Qed.

(** X2.  An exception of the spectrum function aborts [_estimate] with
    that exception before any peak finding; the steering matrix obtained
    for the call stays where the getter put it, so with caching enabled
    it is cached although the call failed. *)
Theorem estimate_propagates_spectrum_error self f_sp k rs re d it w e :
  _A w = None ->
  f_sp (grid_steering_matrix self) = Raise e ->
  exists w',
    _estimate self f_sp k rs re d it w = (Raise e, w') /\
    trace w' = trace w ++ [grid_steering_call self; Call_f_sp (grid_steering_matrix self)] /\
    heap w' = heap w /\
    _A w' = (if _enable_caching self then Some (grid_steering_matrix self) else None).
Proof.
  intros HA Hf. eexists. split.
  - unfold _estimate.
    rewrite (run_bind_ok _ _ _ _ _ (get_steering_matrix_miss self w HA)).
    apply run_bind_raise. rewrite run_call_f_sp, Hf. reflexivity.
  - simpl. by rewrite <- app_assoc.
Qed.

(** X3.  A spectrum whose length is not the number of grid points makes
    [_estimate] raise ValueError at the reshape: the peak finder is not
    called and nothing is truncated or padded. *)
Theorem estimate_rejects_wrong_spectrum_length self f_sp k rs re d it w A w1 flat :
  _get_steering_matrix self w = (Ok A, w1) ->
  f_sp A = Ok flat ->
  length flat <> shape_size (shape (_search_grid self)) ->
  _estimate self f_sp k rs re d it w = (Raise ValueError, add_events w1 [Call_f_sp A]).
Proof.
  intros Hget Hf Hlen. unfold _estimate.
  rewrite (run_bind_ok _ _ _ _ _ Hget).
  erewrite run_bind_ok by (rewrite run_call_f_sp, Hf; reflexivity).
  apply run_bind_raise. rewrite run_lift. unfold np_reshape.
  by destruct (Nat.eqb_spec (length flat) (shape_size (shape (_search_grid self)))).
Qed.

(** X4.  What the peak finder does wrong surfaces as an exception: its
    own exception is passed on, an empty tuple makes [peak_indices[0]]
    raise IndexError, and peaks that do not fit the reshaped spectrum
    (with enough of them for [k]) make the indexing raise IndexError.
    In each case nothing is selected or allocated. *)
Theorem estimate_peak_finder_failures self f_sp k rs re d it w A w1 flat sp :
  _get_steering_matrix self w = (Ok A, w1) ->
  f_sp A = Ok flat ->
  np_reshape flat (shape (_search_grid self)) = Ok sp ->
  let w2 := add_events w1 [Call_f_sp A; Call_peak_finder sp] in
  (forall e, _peak_finder self sp = Raise e ->
     _estimate self f_sp k rs re d it w = (Raise e, w2)) /\
  (_peak_finder self sp = Ok [] ->
     _estimate self f_sp k rs re d it w = (Raise IndexError, w2)) /\
  (forall peaks first e,
     _peak_finder self sp = Ok peaks -> tuple_first peaks = Ok first ->
     (k <= Z.of_nat (length first))%Z ->
     getitem_tuple sp peaks = Raise e ->
     _estimate self f_sp k rs re d it w = (Raise e, w2)).
Proof.
  intros Hget Hf Hsp w2. subst w2. split_and!.
  - intros e Hpk. unfold _estimate.
    rewrite (run_bind_ok _ _ _ _ _ Hget).
    erewrite run_bind_ok by (rewrite run_call_f_sp, Hf; reflexivity).
    erewrite run_bind_ok by (rewrite run_lift, Hsp; reflexivity).
    erewrite run_bind_raise; cycle 1.
    { rewrite run_call_peak_finder, Hpk. reflexivity. }
    by rewrite add_events_add_events.
  - intros Hpk. unfold _estimate.
    rewrite (run_bind_ok _ _ _ _ _ Hget).
    erewrite run_bind_ok by (rewrite run_call_f_sp, Hf; reflexivity).
    erewrite run_bind_ok by (rewrite run_lift, Hsp; reflexivity).
    erewrite run_bind_ok by (rewrite run_call_peak_finder, Hpk; reflexivity).
    erewrite run_bind_raise by (rewrite run_lift; reflexivity).
    by rewrite add_events_add_events.
  - intros peaks first e Hpk Hfirst Hk Hvals. unfold _estimate.
    rewrite (run_bind_ok _ _ _ _ _ Hget).
    erewrite run_bind_ok by (rewrite run_call_f_sp, Hf; reflexivity).
    erewrite run_bind_ok by (rewrite run_lift, Hsp; reflexivity).
    erewrite run_bind_ok by (rewrite run_call_peak_finder, Hpk; reflexivity).
    erewrite run_bind_ok by (rewrite run_lift, Hfirst; reflexivity).
    destruct (Z.ltb_spec (Z.of_nat (length first)) k); [lia|].
    erewrite run_bind_raise by (rewrite run_lift, Hvals; reflexivity).
    by rewrite add_events_add_events.
Qed.

(** X5.  Two calls of [_estimate] in a row on an estimator with caching,
    starting with an empty cache slot: the array design is asked for the
    steering matrix once, by the first call; the second call performs
    the same selection events on the same spectrum and returns a new
    placement object with the same locations. *)
Theorem estimate_twice_computes_steering_matrix_once
    self f_sp k rs d it w flat sp peaks first vals :
  _A w = None ->
  _enable_caching self = true ->
  f_sp (grid_steering_matrix self) = Ok flat ->
  np_reshape flat (shape (_search_grid self)) = Ok sp ->
  _peak_finder self sp = Ok peaks ->
  tuple_first peaks = Ok first ->
  (k <= Z.of_nat (length first))%Z ->
  getitem_tuple sp peaks = Ok vals ->
  shape_size (shape (_search_grid self)) <= length (source_placement (_search_grid self)) ->
  let shp := shape (_search_grid self) in
  let offsets := selected_offsets shp peaks vals k in
  let selection_events : list (@event W G Loc Mat) :=
    [Call_f_sp (grid_steering_matrix self); Call_peak_finder sp; Call_argsort vals;
     Call_sort (map (peak_offset shp peaks) (top_positions vals k));
     Call_placement_getitem offsets] in
  let res (est : ref) : estimate_result ref :=
    if rs then Ret3 true (Some est) (Some sp) else Ret2 true (Some est) in
  exists locs w2 w3,
    _estimate self f_sp k rs false d it w = (Ok (res (length (heap w))), w2) /\
    _estimate self f_sp k rs false d it w2 = (Ok (res (S (length (heap w)))), w3) /\
    heap w3 = heap w ++ [locs; locs] /\
    trace w3 = trace w ++ [grid_steering_call self] ++ selection_events ++ selection_events.
Proof.
  intros HA Hcache Hf Hsp Hpk Hfirst Hk Hvals Hsize shp offsets selection_events res.
  subst shp offsets selection_events res.
  pose proof (get_steering_matrix_miss self w HA) as Hget. rewrite Hcache in Hget.
  destruct (estimate_resolved self f_sp k rs false d it w _ _ flat sp peaks first vals
              Hget Hf Hsp Hpk Hfirst Hk Hvals Hsize) as (locs & Hlocs & Hrun1).
  cbv zeta in Hrun1. simpl in Hrun1.
  set (w2 := mk_world (Some (grid_steering_matrix self)) (heap w ++ [locs]) _) in Hrun1.
  assert (Hget2 : _get_steering_matrix self w2 = (Ok (grid_steering_matrix self), w2))
    by (by apply get_steering_matrix_hit).
  destruct (estimate_resolved self f_sp k rs false d it w2 _ _ flat sp peaks first vals
              Hget2 Hf Hsp Hpk Hfirst Hk Hvals Hsize) as (locs' & Hlocs' & Hrun2).
  rewrite Hlocs in Hlocs'. injection Hlocs' as <-.
  cbv zeta in Hrun2.
  exists locs, w2. eexists. split; [exact Hrun1|]. split.
  - rewrite Hrun2. f_equal. f_equal. unfold w2. simpl. rewrite length_app. simpl.
    unfold resolved_result. by replace (length (heap w) + 1) with (S (length (heap w))) by lia.
  - simpl. split; [by rewrite <- app_assoc|]. by rewrite <- !app_assoc.
Qed.

(** X6.  With [n_iters <= 0] the loop of [_refine_estimates] has no
    round: the call returns after creating the initial sub-grids, calls
    neither the array design nor the spectrum function, and writes no
    location. *)
Theorem refine_without_rounds self f_sp est0 peaks density n_iters w :
  (n_iters <= 0)%Z ->
  _refine_estimates self f_sp est0 peaks density n_iters w =
    (Ok tt, add_events w [Call_refine_estimates est0 peaks density n_iters;
                          Call_create_refined_grids_at peaks density]).
Proof.
  intros Hn. unfold _refine_estimates, range.
  replace (Z.to_nat n_iters) with 0 by lia. simpl.
  unfold bind, log, call_create_refined_grids_at, bind, log, ret, add_events. simpl.
  by rewrite <- app_assoc.
Qed.

(** X7.  A pass of the loop body that returns has written to estimate
    [i] the point of its sub-grid at the first position where the
    spectrum of the sub-grid is maximal: no sample is larger, and every
    earlier sample is smaller. *)
Theorem refine_body_writes_first_maximum
    self f_sp est0 density n_iters r i sg w sg' w' :
  refine_body self f_sp est0 density n_iters r i sg w = (Ok sg', w') ->
  exists g sp i_max v locs',
    sg !! i = Some g /\
    f_sp (steering_matrix (_design self) (source_placement g) (_wavelength self) "known")
      = Ok sp /\
    i_max < length sp /\
    (forall j, j < length sp -> (nth j sp 0 <= nth i_max sp 0)%Z) /\
    (forall j, j < i_max -> (nth j sp 0 < nth i_max sp 0)%Z) /\
    source_placement g !! i_max = Some v /\
    heap w' !! est0 = Some locs' /\ locs' !! i = Some v.
Proof.
  intros Hrun.
  apply refine_body_ok in Hrun
    as (g & i_max & v & locs & Hg & Hloc & Hlocs & Hi & -> & _ & _).
  unfold locate in Hloc.
  destruct (f_sp _) as [sp|] eqn:Hsp; simpl in Hloc; [|done].
  destruct (np_argmax sp) as [i_max'|] eqn:Hmax; simpl in Hloc; [|done].
  unfold getitem in Hloc.
  destruct (source_placement g !! i_max') as [v'|] eqn:Hv; simpl in Hloc; [|done].
  injection Hloc as -> ->.
  destruct (np_argmax_spec _ _ Hmax) as (Hlt & Hle & Hfirst).
  exists g, sp, i_max, v, (<[i := v]> locs). split_and!; try done.
  - simpl. apply list_lookup_insert_eq. by eapply lookup_lt_Some.
  - by apply list_lookup_insert_eq.
Qed.


(** *** Refinement runs to its end on well-behaved collaborators *)

Lemma run_set_location est i v w locs :
  heap w !! est = Some locs -> i < length locs ->
  set_location est i v w =
    (Ok tt, mk_world (_A w) (<[est := <[i := v]> locs]> (heap w))
              (trace w ++ [Set_location est i v])).
Proof.
  intros Hlocs Hi. unfold set_location. rewrite Hlocs.
  by destruct (Nat.ltb_spec i (length locs)); [|lia].
Qed.

Lemma refine_body_total self f_sp est0 density n_iters r i sg w g sp locs :
  sg !! i = Some g ->
  f_sp (steering_matrix (_design self) (source_placement g) (_wavelength self) "known")
    = Ok sp ->
  sp <> [] ->
  length sp <= length (source_placement g) ->
  length sp <= shape_size (shape g) ->
  heap w !! est0 = Some locs -> i < length locs ->
  exists sg' w', refine_body self f_sp est0 density n_iters r i sg w = (Ok sg', w').
Proof.
  intros Hg Hsp Hne Hplace Hshape Hlocs Hi.
  destruct (np_argmax_total sp Hne) as [i_max Hmax].
  destruct (np_argmax_spec sp i_max Hmax) as (Hlt & _).
  destruct (lookup_lt_is_Some_2 (source_placement g) i_max) as [v Hv]; [lia|].
  unfold refine_body.
  erewrite run_bind_ok by (rewrite run_lift; unfold getitem; rewrite Hg; reflexivity).
  erewrite run_bind_ok by (rewrite run_call_steering_matrix; reflexivity).
  erewrite run_bind_ok by (rewrite run_call_f_sp, Hsp; reflexivity).
  erewrite run_bind_ok by (rewrite run_lift, Hmax; reflexivity).
  erewrite run_bind_ok by (rewrite run_lift; unfold getitem; rewrite Hv; reflexivity).
  erewrite run_bind_ok by (apply (run_set_location est0 i v _ locs); [exact Hlocs|exact Hi]).
  destruct (r =? n_iters - 1)%Z; [unfold ret; eauto|].
  erewrite run_bind_ok; cycle 1.
  { rewrite run_lift. unfold unravel_point.
    destruct (Nat.ltb_spec i_max (shape_size (shape g))); [reflexivity|lia]. }
  erewrite run_bind_ok by (rewrite run_call_create_refined_grid_at; reflexivity).
  unfold ret. eauto.
Qed.

Lemma zoom_builds_refined_grid self f_sp density g g' :
  zoom self f_sp density g = Ok g' ->
  exists coord, g' = create_refined_grid_at g coord density.
Proof.
  unfold zoom. destruct (locate self f_sp g) as [[i_max v]|]; simpl; [|done].
  destruct (unravel_point (shape g) i_max) as [coord|]; simpl; [|done].
  intros [= <-]. eauto.
Qed.

Section Total.
Variable self : @SpectrumBasedEstimatorBase D W G.
Variable f_sp : Mat -> outcome (list Z).
Variables (est0 : ref) (density n_iters : Z).
Variable good : G -> Prop.
Hypothesis good_refined :
  forall g coord, good g -> good (create_refined_grid_at g coord density).
Hypothesis good_spectrum :
  forall g, good g ->
    exists sp,
      f_sp (steering_matrix (_design self) (source_placement g) (_wavelength self) "known")
        = Ok sp /\
      sp <> [] /\
      length sp <= length (source_placement g) /\
      length sp <= shape_size (shape g).

Lemma refine_round_total r len :
  forall i0 sg w locs,
  i0 + len = length sg ->
  Forall good sg ->
  heap w !! est0 = Some locs -> length sg <= length locs ->
  exists sg' w' locs',
    for_each (seq i0 len) (refine_body self f_sp est0 density n_iters r) sg w
      = (Ok sg', w') /\
    Forall good sg' /\ length sg' = length sg /\
    heap w' !! est0 = Some locs' /\ length locs' = length locs.
Proof using good_refined good_spectrum.
  induction len as [|len IH]; intros i0 sg w locs Hlen Hgood Hlocs Hfit.
  - exists sg, w, locs. simpl. unfold ret. done.
  - destruct (lookup_lt_is_Some_2 sg i0) as [g Hg]; [lia|].
    assert (Hgg : good g).
    { rewrite Forall_forall in Hgood. apply Hgood, list_elem_of_lookup. eauto. }
    destruct (good_spectrum g Hgg) as (sp & Hsp & Hne & Hplace & Hshape).
    destruct (refine_body_total self f_sp est0 density n_iters r i0 sg w g sp locs)
      as (sg1 & w1 & Hbody); try done; [lia|].
    pose proof Hbody as Hinv.
    apply refine_body_ok in Hinv
      as (g0 & i_max & v & locs0 & Hg0 & _ & Hlocs0 & Hi0 & Hw1 & Hsg1 & Hzoom).
    rewrite Hg in Hg0. injection Hg0 as <-.
    rewrite Hlocs in Hlocs0. injection Hlocs0 as <-.
    assert (Hgood1 : Forall good sg1 /\ length sg1 = length sg).
    { rewrite Hsg1. destruct (r =? n_iters - 1)%Z; [done|].
      destruct (zoom_builds_refined_grid _ _ _ _ _ (Hzoom eq_refl)) as [coord ->].
      split; [|by rewrite length_insert].
      apply Forall_insert; [done|]. by apply good_refined. }
    destruct Hgood1 as [Hgood1 Hlen1].
    destruct (IH (S i0) sg1 w1 (<[i0 := v]> locs)) as (sg' & w' & locs' & Hrun & ?);
      [lia|done| |rewrite length_insert; lia|].
    { rewrite Hw1. simpl. apply list_lookup_insert_eq. by eapply lookup_lt_Some. }
    exists sg', w', locs'. simpl.
    rewrite (run_bind_ok _ _ _ _ _ Hbody).
    rewrite length_insert in *. split; [done|]. destruct_and!. split_and!; try done. lia.
Qed.

Lemma refine_rounds_total (rounds : list Z) :
  forall sg w locs,
  Forall good sg ->
  heap w !! est0 = Some locs -> length sg <= length locs ->
  exists sg' w',
    for_each rounds
      (fun r sg => for_each (seq 0 (length sg))
                     (refine_body self f_sp est0 density n_iters r) sg) sg w
      = (Ok sg', w').
Proof using good_refined good_spectrum.
  induction rounds as [|r rounds IH]; intros sg w locs Hgood Hlocs Hfit.
  - exists sg, w. done.
  - destruct (refine_round_total r (length sg) 0 sg w locs)
      as (sg1 & w1 & locs1 & Hround & Hgood1 & Hlen1 & Hlocs1 & Hfit1); try done.
    destruct (IH sg1 w1 locs1) as (sg' & w' & Hrun); try done; [lia|].
    exists sg', w'. simpl. by rewrite (run_bind_ok _ _ _ _ _ Hround).
Qed.
End Total.

(** X8.  Refinement cannot fail on well-behaved collaborators.  Call a
    sub-grid good when the spectrum function returns on its steering
    matrix a non-empty array no longer than its placement and its number
    of points.  If the initial sub-grids are good, every grid refined
    from a good one is good, and the placement object has a location for
    every initial sub-grid, then [_refine_estimates] returns. *)
Theorem refine_estimates_total
    self f_sp est0 peaks density n_iters w locs (good : G -> Prop) :
  heap w !! est0 = Some locs ->
  length (create_refined_grids_at (_search_grid self) peaks density) <= length locs ->
  (forall g, In g (create_refined_grids_at (_search_grid self) peaks density) -> good g) ->
  (forall g coord, good g -> good (create_refined_grid_at g coord density)) ->
  (forall g, good g ->
     exists sp,
       f_sp (steering_matrix (_design self) (source_placement g) (_wavelength self) "known")
         = Ok sp /\
       sp <> [] /\
       length sp <= length (source_placement g) /\
       length sp <= shape_size (shape g)) ->
  exists w', _refine_estimates self f_sp est0 peaks density n_iters w = (Ok tt, w').
Proof.
  intros Hlocs Hfit Hinit Hstep Hsp.
  destruct (refine_rounds_total self f_sp est0 density n_iters good Hstep Hsp
              (range n_iters)
              (create_refined_grids_at (_search_grid self) peaks density)
              (add_events (add_events w [Call_refine_estimates est0 peaks density n_iters])
                 [Call_create_refined_grids_at peaks density]) locs)
    as (sg' & w' & Hrun); try done.
  { rewrite Forall_forall. intros g Hg. by apply Hinit, list_elem_of_In. }
  exists w'. unfold _refine_estimates.
  erewrite run_bind_ok by (rewrite run_log; reflexivity).
  erewrite run_bind_ok by (rewrite run_call_create_refined_grids_at; reflexivity).
  by rewrite (run_bind_ok _ _ _ _ _ Hrun).
Qed.

(** X13.  With the default peak finder on a one-dimensional grid of [n]
    points, a request for [k] sources with [2 * k > n - 1] can never be
    resolved, whatever the spectrum: there is no room for [k] peaks. *)
Theorem estimate_needs_room_for_k_peaks self f_sp k rs re d it w A w1 flat n :
  (forall sp, _peak_finder self sp = Ok (find_peaks_simple sp)) ->
  shape (_search_grid self) = [n] ->
  _get_steering_matrix self w = (Ok A, w1) ->
  f_sp A = Ok flat ->
  length flat = n ->
  (Z.of_nat (n - 1) < 2 * k)%Z ->
  _estimate self f_sp k rs re d it w =
    (Ok (if rs then Ret3 false None None else Ret2 false None),
     add_events w1 [Call_f_sp A; Call_peak_finder (mk_ndarray [n] flat)]).
Proof.
  intros Hpf Hshape Hget Hf Hlen Hk.
  destruct (local_maxima_loop_spacing flat (length flat - 1) (length flat) 1)
    as (_ & _ & Hcount).
  rewrite (estimate_unresolved self f_sp k rs re d it w A w1 flat
             (mk_ndarray [n] flat) [local_maxima_1d flat] (local_maxima_1d flat));
    try done.
  - rewrite Hshape. unfold np_reshape, shape_size. simpl.
    by destruct (Nat.eqb_spec (length flat) (n * 1)); [|lia].
  - unfold local_maxima_1d. lia.
Qed.

(** X15.  With the default peak finder on a one-dimensional grid, when
    [k] is exactly the number of detected peaks the estimates are the
    grid points at the detected peaks, in the order of the peaks. *)
Theorem estimate_with_exactly_k_peaks self f_sp k rs d it w A w1 flat :
  (forall sp, _peak_finder self sp = Ok (find_peaks_simple sp)) ->
  shape (_search_grid self) = [length flat] ->
  _get_steering_matrix self w = (Ok A, w1) ->
  f_sp A = Ok flat ->
  length flat <= length (source_placement (_search_grid self)) ->
  k = Z.of_nat (length (local_maxima_1d flat)) ->
  exists locs w2,
    getitem_array (source_placement (_search_grid self)) (local_maxima_1d flat) = Ok locs /\
    _estimate self f_sp k rs false d it w =
      (Ok (if rs then Ret3 true (Some (length (heap w1)))
                        (Some (mk_ndarray [length flat] flat))
           else Ret2 true (Some (length (heap w1)))), w2) /\
    heap w2 = heap w1 ++ [locs].
Proof.
  intros Hpf Hshape Hget Hf Hsize ->.
  set (pk := local_maxima_1d flat).
  destruct (local_maxima_loop_spacing flat (length flat - 1) (length flat) 1)
    as (Hrange & Hsorted & _). fold (local_maxima_1d flat) in Hrange, Hsorted.
  fold pk in Hrange, Hsorted.
  assert (Hpk : forall m, In m pk -> m < length flat).
  { intros m Hm%list_elem_of_In. rewrite Forall_forall in Hrange.
    specialize (Hrange m Hm). lia. }
  assert (Hsp : np_reshape flat (shape (_search_grid self))
                = Ok (mk_ndarray [length flat] flat)).
  { rewrite Hshape. unfold np_reshape, shape_size. simpl.
    by destruct (Nat.eqb_spec (length flat) (length flat * 1)); [|lia]. }
  destruct (estimate_resolved self f_sp (Z.of_nat (length pk)) rs false d it w A w1 flat
              (mk_ndarray [length flat] flat) [pk] pk
              (map (fun m => nth m flat 0%Z) pk))
    as (locs & Hlocs & Hrun); try done.
  { by apply getitem_tuple_1d. }
  { rewrite Hshape. unfold shape_size. simpl. lia. }
  assert (Hoffsets : selected_offsets (shape (_search_grid self)) [pk]
                       (map (fun m => nth m flat 0%Z) pk) (Z.of_nat (length pk)) = pk).
  { apply (Sorted_unique le); [apply np_sort_sorted| |].
    - apply StronglySorted_Sorted. clear -Hsorted.
      induction Hsorted as [|a l _ IH Hall]; constructor; [done|].
      eapply Forall_impl; [exact Hall|]. intros b Hb. simpl in Hb. lia.
    - rewrite selected_offsets_perm, Hshape.
      rewrite (map_ext _ (fun j => nth j pk 0)) by (intros; apply peak_offset_1d).
      assert (Hid : map (fun j => nth j pk 0) (seq 0 (length pk)) = pk).
      { pose proof (map_nth_seq 0 (fun m : nat => m) pk) as Hm.
        rewrite map_id in Hm. exact Hm. }
      transitivity (map (fun j => nth j pk 0) (seq 0 (length pk)));
        [|by rewrite Hid].
      apply Permutation_map.
      unfold top_positions, slice_from.
      replace (slice_index _ _) with 0; cycle 1.
      { rewrite np_argsort_length, length_map. unfold slice_index.
        destruct (Z.ltb_spec (- Z.of_nat (length pk)) 0); lia. }
      rewrite drop_0.
      rewrite (np_argsort_perm _), length_map. done. }
  rewrite Hoffsets in Hlocs. cbv zeta in Hrun.
  exists locs. eexists. split; [done|]. split; [exact Hrun|done].
Qed.

End PipelineMore.

(** ** The further properties on the demo estimator *)

Lemma refinement_starts_at_selected_peaks_witness :
  ravel_offset (shape (_search_grid demo_estimator))
    (peak_point
       (axes_of (length (shape (_search_grid demo_estimator)))
          (map (unravel_offset (shape (_search_grid demo_estimator)))
             (selected_offsets (shape (_search_grid demo_estimator))
                demo_peaks demo_values 2))) 1) 0 = 4.
Proof.
  assert (Hget : _get_steering_matrix demo_estimator demo_world = (Ok demo_A, demo_cached))
    by reflexivity.
  assert (Hsize : shape_size (shape (_search_grid demo_estimator))
                  <= length (source_placement (_search_grid demo_estimator)))
    by (vm_compute; lia).
  assert (Hk : (2 <= Z.of_nat (length [1; 4]))%Z) by (simpl; lia).
  destruct (refinement_starts_at_selected_peaks demo_estimator two_lobes 2 false 10 3
              demo_world demo_A demo_cached demo_flat demo_sp demo_peaks [1; 4] demo_values
              Hget eq_refl eq_refl eq_refl eq_refl eq_refl Hsize Hk)
    as [_ Hpoints].
  destruct (Hpoints 1 4 eq_refl) as (_ & Hravel & _). exact Hravel.
Defined.

Lemma estimate_propagates_spectrum_error_witness :
  exists w',
    _estimate demo_estimator (fun _ => Raise CallerError) 2 false false 10 3 demo_world
      = (Raise CallerError, w') /\
    trace w' = trace demo_world ++
      [grid_steering_call demo_estimator; Call_f_sp (grid_steering_matrix demo_estimator)] /\
    heap w' = heap demo_world /\
    _A w' = (if _enable_caching demo_estimator
             then Some (grid_steering_matrix demo_estimator) else None).
Proof.
  apply (estimate_propagates_spectrum_error demo_estimator (fun _ => Raise CallerError)
           2 false false 10 3 demo_world CallerError); reflexivity.
Defined.

Lemma estimate_rejects_wrong_spectrum_length_witness :
  _estimate demo_estimator (fun _ => Ok [1; 2; 3]%Z) 2 false false 10 3 demo_world =
    (Raise ValueError, add_events demo_cached [Call_f_sp demo_A]).
Proof.
  apply (estimate_rejects_wrong_spectrum_length demo_estimator (fun _ => Ok [1; 2; 3]%Z)
           2 false false 10 3 demo_world demo_A demo_cached [1; 2; 3]%Z);
    try reflexivity.
  simpl. lia.
Defined.

Lemma estimate_peak_finder_failures_witness :
  _estimate (demo_estimator_with (fun _ => Raise CallerError)) two_lobes 1 false false 10 3
      demo_world =
    (Raise CallerError, add_events demo_cached [Call_f_sp demo_A; Call_peak_finder demo_sp]) /\
  _estimate (demo_estimator_with (fun _ => Ok [])) two_lobes 1 false false 10 3
      demo_world =
    (Raise IndexError, add_events demo_cached [Call_f_sp demo_A; Call_peak_finder demo_sp]) /\
  _estimate (demo_estimator_with (fun _ => Ok [[9; 1]])) two_lobes 1 false false 10 3
      demo_world =
    (Raise IndexError, add_events demo_cached [Call_f_sp demo_A; Call_peak_finder demo_sp]).
Proof.
  split; [|split].
  - destruct (estimate_peak_finder_failures (demo_estimator_with (fun _ => Raise CallerError))
                two_lobes 1 false false 10 3 demo_world demo_A demo_cached demo_flat demo_sp)
      as (Hraise & _ & _); [reflexivity..|].
    apply Hraise. reflexivity.
  - destruct (estimate_peak_finder_failures (demo_estimator_with (fun _ => Ok []))
                two_lobes 1 false false 10 3 demo_world demo_A demo_cached demo_flat demo_sp)
      as (_ & Hempty & _); [reflexivity..|].
    apply Hempty. reflexivity.
  - destruct (estimate_peak_finder_failures (demo_estimator_with (fun _ => Ok [[9; 1]]))
                two_lobes 1 false false 10 3 demo_world demo_A demo_cached demo_flat demo_sp)
      as (_ & _ & Hbad); [reflexivity..|].
    apply (Hbad [[9; 1]] [9; 1] IndexError); [reflexivity|reflexivity|simpl; lia|reflexivity].
Defined.

Lemma estimate_twice_computes_steering_matrix_once_witness :
  exists locs w2 w3,
    _estimate demo_estimator two_lobes 2 false false 10 3 demo_world
      = (Ok (Ret2 true (Some 0)), w2) /\
    _estimate demo_estimator two_lobes 2 false false 10 3 w2
      = (Ok (Ret2 true (Some 1)), w3) /\
    heap w3 = [locs; locs].
Proof.
  destruct (estimate_twice_computes_steering_matrix_once demo_estimator two_lobes 2 false
              10 3 demo_world demo_flat demo_sp demo_peaks [1; 4] demo_values)
    as (locs & w2 & w3 & Hfirst & Hsecond & Hheap & _);
    try reflexivity; try (simpl; lia).
  exists locs, w2, w3. split; [exact Hfirst|]. split; [exact Hsecond|exact Hheap].
Defined.

Lemma refine_without_rounds_witness :
  _refine_estimates demo_estimator two_lobes 0 demo_peaks 10 0 demo_coarse =
    (Ok tt, add_events demo_coarse [Call_refine_estimates 0 demo_peaks 10 0;
                                    Call_create_refined_grids_at demo_peaks 10]).
Proof.
  apply (refine_without_rounds demo_estimator two_lobes 0 demo_peaks 10 0 demo_coarse). lia.
Defined.

Lemma refine_body_writes_first_maximum_witness :
  exists sg' w',
    refine_body demo_estimator two_lobes 0 10 3 0 0 demo_subgrids demo_coarse = (Ok sg', w') /\
    exists g sp i_max v locs',
      demo_subgrids !! 0 = Some g /\
      two_lobes (steering_matrix (_design demo_estimator) (source_placement g)
                   (_wavelength demo_estimator) "known") = Ok sp /\
      i_max < length sp /\
      (forall j, j < length sp -> (nth j sp 0 <= nth i_max sp 0)%Z) /\
      (forall j, j < i_max -> (nth j sp 0 < nth i_max sp 0)%Z) /\
      source_placement g !! i_max = Some v /\
      heap w' !! 0 = Some locs' /\ locs' !! 0 = Some v.
Proof.
  eexists _, _. split; [vm_compute; reflexivity|].
  eapply (refine_body_writes_first_maximum demo_estimator two_lobes 0 10 3 0 0
            demo_subgrids demo_coarse).
  vm_compute. reflexivity.
Defined.

Lemma refine_estimates_total_witness :
  exists w',
    _refine_estimates demo_estimator two_lobes 0 demo_peaks 10 5 demo_coarse = (Ok tt, w').
Proof.
  apply (refine_estimates_total demo_estimator two_lobes 0 demo_peaks 10 5 demo_coarse
           [1000; 4000]%Z (fun g => 0 < lg_count g)).
  - reflexivity.
  - simpl. lia.
  - simpl. intros g [<-|[<-|[]]]; simpl; lia.
  - intros g coord _. simpl. lia.
  - intros g Hg. simpl. unfold two_lobes. eexists. split; [reflexivity|].
    unfold line_points. rewrite !length_map, length_seq.
    split; [|lia]. destruct (lg_count g); [lia|done].
Defined.


Lemma find_peaks_simple_1d_spacing_witness :
  exists peaks,
    find_peaks_simple demo_sp = [peaks] /\
    StronglySorted (fun a b => a + 2 <= b) peaks /\
    2 * length peaks <= length (nd_data demo_sp) - 1.
Proof.
  apply (find_peaks_simple_1d_spacing demo_sp). reflexivity.
Defined.

Lemma find_peaks_simple_nd_witness :
  (exists j, j < length (nth 0 (find_peaks_simple demo_2d) []) /\
     peak_point (find_peaks_simple demo_2d) j = [2; 2]) <->
  coord_in_bounds (nd_shape demo_2d) [2; 2] = true /\
  forall c',
    coord_in_bounds (nd_shape demo_2d) c' = true ->
    Forall2 (fun a a' => a' <= a + 1 /\ a <= a' + 1) [2; 2] c' ->
    (sample_at demo_2d c' <= sample_at demo_2d [2%nat; 2%nat])%Z.
Proof.
  apply (find_peaks_simple_nd demo_2d [2; 2]); [vm_compute; lia|reflexivity].
Defined.

Lemma find_peaks_simple_nd_constant_witness :
  exists j, j < length (nth 0 (find_peaks_simple demo_flat_2d) []) /\
    peak_point (find_peaks_simple demo_flat_2d) j = [1; 2].
Proof.
  apply (find_peaks_simple_nd_constant demo_flat_2d 4%Z [1; 2]);
    [vm_compute; lia|reflexivity|repeat constructor|reflexivity].
Defined.

Lemma estimate_needs_room_for_k_peaks_witness :
  _estimate demo_estimator two_lobes 4 true false 10 3 demo_world =
    (Ok (Ret3 false None None),
     add_events demo_cached [Call_f_sp demo_A; Call_peak_finder (mk_ndarray [7] demo_flat)]).
Proof.
  apply (estimate_needs_room_for_k_peaks demo_estimator two_lobes 4 true false 10 3
           demo_world demo_A demo_cached demo_flat 7);
    try reflexivity; try (simpl; lia).
Defined.

Lemma get_noise_subspace_negative_k_witness :
  exists N,
    get_noise_subspace eigh_diag R_2_5 (-1) = Ok N /\
    is_matrix 2 (Nat.min (Z.to_nat (- -1)) 2) N /\
    (forall j, j < Nat.min (Z.to_nat (- -1)) 2 -> column j N = column j [[1; 0]; [0; 1]]%Z) /\
    ((- -1 < Z.of_nat 2)%Z -> get_noise_subspace eigh_diag R_2_5 (Z.of_nat 2 + -1) = Ok N).
Proof.
  apply (get_noise_subspace_negative_k eigh_diag R_2_5 2 (-1) [2; 5]%Z).
  - reflexivity.
  - split; [done|repeat constructor].
  - lia.
Defined.

Lemma estimate_with_exactly_k_peaks_witness :
  exists locs w2,
    getitem_array (source_placement (_search_grid demo_estimator))
      (local_maxima_1d demo_flat) = Ok locs /\
    _estimate demo_estimator two_lobes (Z.of_nat (length (local_maxima_1d demo_flat)))
      true false 10 3 demo_world =
      (Ok (Ret3 true (Some (length (heap demo_cached)))
             (Some (mk_ndarray [length demo_flat] demo_flat))), w2) /\
    heap w2 = heap demo_cached ++ [locs].
Proof.
  apply (estimate_with_exactly_k_peaks demo_estimator two_lobes _ true 10 3
           demo_world demo_A demo_cached demo_flat);
    try reflexivity; try (vm_compute; lia).
Defined.
